(** * The "saving" test step of wed: payload repair, cross-browser
      normalisation and comparison

    Source: [packages/core/selenium_test/steps/saving.py].

    The step fetches the text the test server recorded for the editor's save
    requests, repairs it into one JSON object, decodes it, drops the
    [version] field, flips a few attribute pairs that some browsers serialise
    in another order, and compares the outcome with a fixed table of expected
    documents.

    A Python [str] is a sequence of Unicode code points; it is embedded as a
    list of numbers ([list N]).  The regular expressions of the file are
    embedded as syntax trees run by a backtracking matcher that follows the
    priorities of Python's [re] module (greedy: longest first, lazy: shortest
    first, leftmost match wins). *)

From Stdlib Require Import String Ascii NArith Lia.
From stdpp Require Import base option list gmap.

Set Default Proof Using "Type".

Local Open Scope N_scope.
Local Open Scope nat_scope.
Local Open Scope list_scope.

(** ** Python strings *)

Abbreviation str := (list N).

(** The double-quote character, the newline and the apostrophe. *)
Definition dq : N := 34%N.
Definition nl : N := 10%N.
Definition apostrophe : N := 39%N.

(** [lit] turns a literal into a [str].  A literal of this file cannot
    hold the double-quote character, so [lit] reads an apostrophe as the
    double-quote character U+0022: [lit "rend='x'"] is the text
    r, e, n, d, =, U+0022, x, U+0022.  None of the literals of the source
    holds an apostrophe. *)
Fixpoint lit (s : string) : str :=
  match s with
  | EmptyString => []
  | String a s' =>
      (let c := N_of_ascii a in if N.eqb c apostrophe then dq else c) :: lit s'
  end.

(** [lines] joins the pieces of a literal that the source continues over
    several lines with a backslash at the end of each line. *)
Definition lines (l : list string) : str := concat (map lit l).

(** [str.isspace] for one code point: the white space of CPython's
    [_PyUnicode_IsWhitespace]. *)
Definition isspace (c : N) : bool :=
  ((0x09 <=? c) && (c <=? 0x0D) || (0x1C <=? c) && (c <=? 0x20)
   || (c =? 0x85) || (c =? 0xA0) || (c =? 0x1680)
   || (0x2000 <=? c) && (c <=? 0x200A)
   || (c =? 0x2028) || (c =? 0x2029) || (c =? 0x202F) || (c =? 0x205F)
   || (c =? 0x3000))%N.

Fixpoint lstrip (s : str) : str :=
  match s with
  | c :: s' => if isspace c then lstrip s' else s
  | [] => []
  end.

Definition rstrip (s : str) : str := rev (lstrip (rev s)).

(** [s.strip()] *)
Definition strip (s : str) : str := rstrip (lstrip s).

(** [strip_prefix w s] is [Some s'] when [s = w ++ s']. *)
Fixpoint strip_prefix (w s : str) : option str :=
  match w with
  | [] => Some s
  | c :: w' =>
      match s with
      | d :: s' => if (c =? d)%N then strip_prefix w' s' else None
      | [] => None
      end
  end.

Definition startswith (s w : str) : bool :=
  match strip_prefix w s with Some _ => true | None => false end.

(** [replace_go old new skip s]: one pass from left to right; [skip] counts
    the characters of an occurrence of [old] that are still to be passed
    over. *)
Fixpoint replace_go (old new : str) (skip : nat) (s : str) : str :=
  match s with
  | [] => []
  | c :: s' =>
      match skip with
      | S k => replace_go old new k s'
      | O =>
          if startswith s old
          then new ++ replace_go old new (length old - 1) s'
          else c :: replace_go old new 0 s'
      end
  end.

(** [s.replace(old, new)].  With an empty [old] Python puts [new] before
    every character and at the end. *)
Definition replace (old new s : str) : str :=
  match old with
  | [] => new ++ flat_map (fun c => c :: new) s
  | _ :: _ => replace_go old new 0 s
  end.

(** [w in s] for strings. *)
Fixpoint contains (s w : str) : bool :=
  startswith s w ||
  match s with
  | [] => false
  | _ :: s' => contains s' w
  end.

(** ** Regular expressions *)

Module Re.

(** The character sets the file's patterns use: [.] (anything but a
    newline, the patterns are compiled without flags) and [[^c]]. *)
Inductive cclass : Type :=
| AnyButNewline
| AnyBut (c : N).

Definition accepts (cl : cclass) (c : N) : bool :=
  match cl with
  | AnyButNewline => negb (c =? nl)%N
  | AnyBut d => negb (c =? d)%N
  end.

(** Patterns: literal text, a starred character set ([greedy = true] for
    [*], [false] for [*?]), sequence, and a numbered capture group. *)
Inductive regex : Type :=
| Lit (w : str)
| Star (greedy : bool) (cl : cclass)
| Seq (r1 r2 : regex)
| Group (n : nat) (r : regex).

(** The text captured by each group, the latest capture first. *)
Definition groups := list (nat * str).

Fixpoint group (g : groups) (n : nat) : str :=
  match g with
  | [] => []
  | (i, w) :: g' => if Nat.eqb i n then w else group g' n
  end.

Section Matcher.
Context {A : Type}.

(** A starred set before the continuation [k].  Greedy: take one more
    character first and come back to [k] here only if that fails.  Lazy:
    try [k] here first and take one more character only if that fails. *)
Fixpoint star_m (greedy : bool) (cl : cclass) (s : str)
    (k : str -> option A) : option A :=
  match s with
  | c :: s' =>
      if accepts cl c then
        if greedy then
          match star_m greedy cl s' k with
          | Some a => Some a
          | None => k s
          end
        else
          match k s with
          | Some a => Some a
          | None => star_m greedy cl s' k
          end
      else k s
  | [] => k s
  end.

(** [m r s g k]: match [r] at the start of [s] with the groups [g]
    captured so far, then continue with [k] on what is left; [None] makes
    the matcher backtrack. *)
Fixpoint m (r : regex) (s : str) (g : groups)
    (k : str -> groups -> option A) : option A :=
  match r with
  | Lit w =>
      match strip_prefix w s with
      | Some s' => k s' g
      | None => None
      end
  | Star greedy cl => star_m greedy cl s (fun s' => k s' g)
  | Seq r1 r2 => m r1 s g (fun s' g' => m r2 s' g' k)
  | Group n r =>
      m r s g (fun s' g' => k s' ((n, take (length s - length s') s) :: g'))
  end.
End Matcher.

(** [match_here r s]: the match of [r] that starts at the first character
    of [s], as its length and its groups. *)
Definition match_here (r : regex) (s : str) : option (nat * groups) :=
  m r s [] (fun s' g => Some (length s - length s', g)).

(** [r.search(s)]: the leftmost match, as start, length and groups. *)
Fixpoint search (r : regex) (s : str) : option (nat * nat * groups) :=
  match match_here r s with
  | Some (n, g) => Some (0, n, g)
  | None =>
      match s with
      | [] => None
      | _ :: s' =>
          match search r s' with
          | Some (p, n, g) => Some (S p, n, g)
          | None => None
          end
      end
  end.

(** Replacement templates: literal text and group references ([\1]). *)
Inductive piece : Type :=
| Text (w : str)
| Ref (n : nat).

Definition template := list piece.

Definition expand (t : template) (g : groups) : str :=
  flat_map (fun p => match p with Text w => w | Ref n => group g n end) t.

(** [sub_go r t skip s]: one pass from left to right; [skip] counts the
    characters of the current match that are still to be passed over.  An
    empty match is replaced and the scan moves on by one character. *)
Fixpoint sub_go (r : regex) (t : template) (skip : nat) (s : str) : str :=
  match skip with
  | S k =>
      match s with
      | [] => []
      | _ :: s' => sub_go r t k s'
      end
  | O =>
      match match_here r s with
      | Some (n, g) =>
          expand t g ++
          match s with
          | [] => []
          | c :: s' =>
              match n with
              | O => c :: sub_go r t 0 s'
              | S k => sub_go r t k s'
              end
          end
      | None =>
          match s with
          | [] => []
          | c :: s' => c :: sub_go r t 0 s'
          end
      end
  end.

(** [r.sub(t, s)]: every leftmost non-overlapping match replaced. *)
Definition sub (r : regex) (t : template) (s : str) : str := sub_go r t 0 s.

(** The words a pattern denotes, apart from any matching strategy. *)
Fixpoint lang (r : regex) (w : str) : Prop :=
  match r with
  | Lit v => w = v
  | Star _ cl => Forall (fun c => accepts cl c = true) w
  | Seq r1 r2 => exists w1 w2, w = w1 ++ w2 /\ lang r1 w1 /\ lang r2 w2
  | Group _ r' => lang r' w
  end.

End Re.

Import Re.

Declare Scope re_scope.
Delimit Scope re_scope with re.
Bind Scope re_scope with regex.
Infix ">>" := Seq (at level 60, right associativity) : re_scope.

(** ** The patterns of the source *)

(** [re.compile('.*}{')] *)
Definition last_obj_re : regex :=
  (Star true AnyButNewline >> Lit (lit "}{"))%re.

(** [name='[^']*?'] (with the double quote written as an apostrophe, as in
    every comment below), the shape of every group of the flip patterns. *)
Definition attr_re (name : string) : regex :=
  (Lit (lit name ++ lit "='") >> Star false (AnyBut dq) >> Lit (lit "'"))%re.

(** [re.compile(r"(style='[^']*?') (rend='[^']*?')")] *)
Definition flip_rend_style_re : regex :=
  (Group 1 (attr_re "style") >> Lit (lit " ") >> Group 2 (attr_re "rend"))%re.

(** [re.compile(r"(xmlns:math='[^']*?') (xmlns='[^']*?')")] *)
Definition flip_xmlns_re : regex :=
  (Group 1 (attr_re "xmlns:math") >> Lit (lit " ") >>
   Group 2 (attr_re "xmlns"))%re.

(** [re.compile(r"(type='[^']*?') (rend='[^']*?') (rendition='[^']*?') "
                r"(subtype='[^']*?')")] *)
Definition flip_div_attrs_re : regex :=
  (Group 1 (attr_re "type") >> Lit (lit " ") >>
   Group 2 (attr_re "rend") >> Lit (lit " ") >>
   Group 3 (attr_re "rendition") >> Lit (lit " ") >>
   Group 4 (attr_re "subtype"))%re.

(** [re.compile(r"(moo='[^']*?') (MOO='[^']*?')")] *)
Definition flip_moo_re : regex :=
  (Group 1 (attr_re "moo") >> Lit (lit " ") >> Group 2 (attr_re "MOO"))%re.

(** The replacement templates ['{'], [r'\2 \1'] and [r'\1 \4 \2 \3']. *)
Definition brace_t : template := [Text (lit "{")].
Definition swap_t : template := [Ref 2; Text (lit " "); Ref 1].
Definition div_t : template :=
  [Ref 1; Text (lit " "); Ref 4; Text (lit " "); Ref 2; Text (lit " "); Ref 3].

(** [_SCENARIO_TO_EXPECTED_DATA], one piece per line of the source. *)
Definition expected_namespaces : str :=
  lines [
     "<TEI xmlns='http://www.tei-c.org/ns/1.0'><teiHeader><fileDesc>";
     "<titleStmt><title>abcd</title></titleStmt><publicationStmt><p/>";
     "</publicationStmt><sourceDesc><p MOO='a' moo='b'/>";
     "</sourceDesc></fileDesc></teiHeader>";
     "<text><body><p><hi/>Blah blah <term>blah</term> blah.</p>";
     "<p><term>blah</term></p><p><ref/></p><p><hi>a</hi><hi>b</hi>c</p>";
     "<p>abcdefghij</p><p>aaaaaaaaaaaaaaaaaaaaaaaaaaaaaaaaaaaaaaaaaaaaa";
     "<hi>aaaaaaaa aaaaaaaaaaa</hi>abcd</p><p>abcd abcd abcd abcd abcd abcd ";
     "abcd ";
     "abcd abcd abcd abcd abcd abcd abcd abcd abcd abcd abcd abcd abcd abcd ";
     "abcd ";
     "abcd abcd abcd abcd abcd abcd abcd abcd abcd abcd abcd abcd abcd abcd ";
     "abcd ";
     "abcd abcd abcd abcd abcd abcd abcd abcd abcd abcd abcd abcd abcd abcd ";
     "abcd ";
     "abcd abcd abcd abcd abcd abcd abcd abcd</p>";
     "<p rend='rend_value' style='style_value'>Blah</p><p rend='abc'>Blah</p>";
     "<p part=''>Blah</p><div sample=''/><p rend='foo'/><p rend='wrap'>Something</p>";
     "<p><monogr>";
     "This paragraph and its content are designed to test how error markers ";
     "are shown for inline elements that end up spanning multiple lines. ";
     "This paragraph and its content are designed to test how error markers ";
     "are shown for inline elements that end up spanning multiple lines. ";
     "This paragraph and its content are designed to test how error markers ";
     "are shown for inline elements that end up spanning multiple lines.";
     "</monogr></p><p n=''>P</p>";
     "<div type='a' subtype='b' rend='foo' rendition='bar'/>";
     "<div xxx='x'>This div has a bad attribute.</div>";
     "<list rend='list'><item>a</item><item>b</item><item>c</item></list>";
     "<?pi fnord?>";
     "<!-- a comment -->";
     "<?pi something?>";
     "<!-- comment content -->";
     "</body></text></TEI>"
  ]%string.

Definition expected_top_namespaces : str :=
  lines [
     "<TEI xmlns='http://www.tei-c.org/ns/1.0' ";
     "xmlns:math='http://www.w3.org/1998/Math/MathML'><teiHeader><fileDesc>";
     "<titleStmt><title/></titleStmt><publicationStmt><p/></publicationStmt>";
     "<sourceDesc><p/></sourceDesc></fileDesc></teiHeader><text><body><p>";
     "<hi/><formula><math:math/></formula></p></body></text></TEI>"
  ]%string.

Definition _SCENARIO_TO_EXPECTED_DATA : gmap str str :=
  <[lit "serializes namespaces properly" := expected_namespaces]>
  (<[lit "serializes multiple top namespaces properly" :=
       expected_top_namespaces]> ∅).

(** ** The Normalizer *)

(** [context.util], as far as the step reads it: the two browser flags. *)
Record util : Type := Util { ie : bool; edge : bool }.

(** The three browser identities of the specification. *)
Definition default_browser : util := Util false false.
Definition legacy_ie : util := Util true false.
Definition legacy_edge : util := Util false true.

(** The substitutions that lines 95 to 107 apply to [actual['data']], in
    their order, as a function on the string. *)
Definition normalize (u : util) (data : str) : str :=
  if ie u then
    let data := sub flip_rend_style_re swap_t data in
    let data := sub flip_xmlns_re swap_t data in
    sub flip_div_attrs_re div_t data
  else if edge u then
    let data := sub flip_rend_style_re swap_t data in
    let data := sub flip_div_attrs_re div_t data in
    sub flip_moo_re swap_t data
  else data.

(** ** Decoded payloads, exceptions, results *)

(** The marker between two saves, a line of three stars, and the keys of
    the payload. *)
Definition marker : str := [nl] ++ lit "***" ++ [nl].
Definition k_version : str := lit "version".
Definition k_data : str := lit "data".
Definition k_command : str := lit "command".

Section Verifier.
(** What [json.loads] makes of a JSON value that is not a string (numbers,
    booleans, null, arrays, nested objects) is kept abstract, with their
    [==] as [other_eq]: the step only tells them apart from strings. *)
Context {other : Type} (other_eq : other -> other -> bool).

Inductive value : Type :=
| VStr (s : str)
| VOther (o : other).

(** A decoded JSON object is a Python dict with string keys. *)
Abbreviation dict := (gmap str value).

(** What [json.loads] returns: a dict, or anything else. *)
Inductive loaded : Type :=
| Dict (d : dict)
| NotDict.

Inductive exn : Type :=
| KeyError (key : str)
| TypeError
| JSONDecodeError
| AssertionError
| ConditionTimeout (last : option (dict * dict)).

Inductive outcome (A : Type) : Type :=
| Ok (a : A)
| Raise (e : exn).
Arguments Ok {A} a.
Arguments Raise {A} e.

Definition obind {A B} (x : outcome A) (f : A -> outcome B) : outcome B :=
  match x with
  | Ok a => f a
  | Raise e => Raise e
  end.

(** [x == y] on decoded values: a string equals only the same string. *)
Definition value_eq (x y : value) : bool :=
  match x, y with
  | VStr a, VStr b => bool_decide (a = b)
  | VOther a, VOther b => other_eq a b
  | _, _ => false
  end.

(** [a == b] on dicts: the same keys, with equal values. *)
Definition dict_eq (a b : dict) : bool :=
  bool_decide
    (map_relation (fun _ x y => value_eq x y = true)
       (fun _ _ => False) (fun _ _ => False) a b).

(** [selenic.util.Result(result, payload)], with the two-element list
    [[actual, expected]] of line 109 as a pair; a [Result] counts as true
    when its [result] does. *)
Record Result : Type := MkResult { result : bool; payload : dict * dict }.

(** [actual['data'] = r.sub(t, actual['data'])]; [re.sub] raises
    [TypeError] on anything but a string. *)
Definition flip (r : regex) (t : template) (actual : dict) : outcome dict :=
  match actual !! k_data with
  | None => Raise (KeyError k_data)
  | Some (VStr s) => Ok (<[k_data := VStr (sub r t s)]> actual)
  | Some (VOther _) => Raise TypeError
  end.

(** Lines 92 to 109 of [cond], from the decoded payload on. *)
Definition compare (u : util) (expected : dict) (l : loaded)
    : outcome Result :=
  match l with
  | NotDict => Raise TypeError
  | Dict actual =>
      (* del actual['version'] *)
      match actual !! k_version with
      | None => Raise (KeyError k_version)
      | Some _ =>
          let actual := delete k_version actual in
          obind
            (if bool_decide (is_Some (actual !! k_data)) then
               if ie u then
                 obind (flip flip_rend_style_re swap_t actual) (fun actual =>
                 obind (flip flip_xmlns_re swap_t actual) (fun actual =>
                 flip flip_div_attrs_re div_t actual))
               else if edge u then
                 obind (flip flip_rend_style_re swap_t actual) (fun actual =>
                 obind (flip flip_div_attrs_re div_t actual) (fun actual =>
                 flip flip_moo_re swap_t actual))
               else Ok actual
             else Ok actual)
            (fun actual =>
               Ok (MkResult (dict_eq actual expected) (actual, expected)))
      end
  end.

(** The payload that is compared: [data], when it is a string, replaced
    by its normal form. *)
Definition normalized (u : util) (a : dict) : dict :=
  match a !! k_data with
  | Some (VStr s) => <[k_data := VStr (normalize u s)]> a
  | _ => a
  end.

(** [re.sub] is about to be handed something that is not a string. *)
Definition data_not_str (u : util) (a : dict) : bool :=
  match a !! k_data with
  | Some (VOther _) => ie u || edge u
  | _ => false
  end.

(** Whether the condition returned a result that counts as true. *)
Definition succeeds (o : outcome Result) : bool :=
  match o with
  | Ok r => result r
  | Raise _ => false
  end.

(** ** Fetching and polling *)

(** The test server: the text that the [n]-th GET of
    [/build/ajax/save.txt] returns. *)
Definition server := nat -> str.

(** Computations that may fetch: they pass on the number of GETs made so
    far and may raise. *)
Definition M (A : Type) : Type := nat -> outcome A * nat.

Definition ret {A} (a : A) : M A := fun n => (Ok a, n).
Definition raise {A} (e : exn) : M A := fun n => (Raise e, n).
Definition lift {A} (x : outcome A) : M A := fun n => (x, n).
Definition bind {A B} (x : M A) (f : A -> M B) : M B :=
  fun n =>
    match x n with
    | (Ok a, n') => f a n'
    | (Raise e, n') => (Raise e, n')
    end.

(** [requests.get(urljoin(context.local_server, '/build/ajax/save.txt'))
    .text]; a failure of the transport is outside this model. *)
Definition get (srv : server) : M str := fun n => (Ok (srv n), S n).

(** The dict of lines 81 to 84, for the table's entry [data]. *)
Definition expected_of (data : str) : dict :=
  <[k_command := VStr (lit "save")]> (<[k_data := VStr data]> ∅).

(** Line 89, [resp.text.replace(marker, '').strip()], and line 90,
    [last_obj_re.sub('{', text)]. *)
Definition preprocess (text : str) : str := strip (replace marker [] text).
Definition repair (text : str) : str := sub last_obj_re brace_t text.

Section Step.
(** [json.loads] (Python's library) and [Condition(util, cond).wait()]
    (selenic's library) are taken as they come. *)
Variable json_loads : str -> outcome loaded.
Variable wait : M Result -> M Result.
Variable srv : server.

(** [cond], lines 86 to 109. *)
Definition cond (u : util) (expected : dict) : M Result :=
  bind (get srv) (fun text =>
  let text := preprocess text in
  let text := repair text in
  bind (lift (json_loads text)) (fun actual =>
  lift (compare u expected actual))).

(** [assert_equal(a, b)] *)
Definition assert_equal (a b : dict) : M unit :=
  if dict_eq a b then ret tt else raise AssertionError.

(** [step_impl] of line 78: 'the data saved is properly serialized'. *)
Definition step_impl (u : util) (scenario_name : str) : M unit :=
  match _SCENARIO_TO_EXPECTED_DATA !! scenario_name with
  | None => raise (KeyError scenario_name)
  | Some data =>
      let expected := expected_of data in
      bind (wait (cond u expected)) (fun r =>
      if negb (result r)
      then assert_equal (fst (payload r)) (snd (payload r))
      else ret tt)
  end.
End Step.

(** Modelled from the spec: the Polling Condition Evaluator (section 4.1;
    selenic's [Condition.wait] is not part of the repository).  It invokes
    the predicate up to [attempts] times, returns the first successful
    result, and fails with [ConditionTimeout] carrying the last payload
    seen; with [tolerate] an exception of the predicate counts as not yet
    satisfied. *)
Fixpoint poll (tolerate : bool) (attempts : nat)
    (last : option (dict * dict)) (c : M Result) : M Result :=
  match attempts with
  | O => raise (ConditionTimeout last)
  | S k =>
      fun n =>
        match c n with
        | (Ok r, n') =>
            if result r then (Ok r, n')
            else poll tolerate k (Some (payload r)) c n'
        | (Raise e, n') =>
            if tolerate then poll tolerate k last c n' else (Raise e, n')
        end
  end.
End Verifier.

Arguments Ok {other A} a.
Arguments Raise {other A} e.
Arguments NotDict {other}.
Arguments TypeError {other}.
Arguments JSONDecodeError {other}.
Arguments AssertionError {other}.
Arguments KeyError {other} key.

(** * The vocabulary of the claims *)

(** [occurs w s]: [w] is a substring of [s]. *)
Definition occurs (w s : str) : Prop := exists pre post, s = pre ++ w ++ post.

(** [free r s]: no substring of [s] is a word of [r]. *)
Definition free (r : regex) (s : str) : Prop :=
  forall pre w post, s = pre ++ w ++ post -> ~ lang r w.

(** [attr name X] is the text [name='X']. *)
Definition attr (name : string) (X : str) : str :=
  lit name ++ lit "='" ++ X ++ lit "'".

(** An attribute value: a text without a double quote. *)
Definition quote_free (X : str) : Prop := dq ∉ X.

(** [pair_text a b X Y] is the text [a='X' b='Y']. *)
Definition pair_text (a b : string) (X Y : str) : str :=
  attr a X ++ lit " " ++ attr b Y.

(** [div_text A B C D] is [type='A' rend='B' rendition='C' subtype='D']. *)
Definition div_text (A B C D : str) : str :=
  attr "type" A ++ lit " " ++ attr "rend" B ++ lit " " ++
  attr "rendition" C ++ lit " " ++ attr "subtype" D.

(** The shape of the three patterns that swap two attributes. *)
Definition flip2_re (a b : string) : regex :=
  (Group 1 (attr_re a) >> Lit (lit " ") >> Group 2 (attr_re b))%re.

(** [is_pair a b w]: [w] is [a='X' b='Y'] for values without a double
    quote. *)
Definition is_pair (a b : string) (w : str) : Prop :=
  exists X Y, quote_free X /\ quote_free Y /\ w = pair_text a b X Y.

(** A text cut at its pairs: each item is the text before a pair and the
    two values of the pair; [tail] is what follows the last pair. *)
Fixpoint with_pairs (a b : string) (l : list (str * str * str)) (tail : str)
    : str :=
  match l with
  | [] => tail
  | (pre, X, Y) :: l' => pre ++ pair_text a b X Y ++ with_pairs a b l' tail
  end.

(** The same cut with the two values of every pair exchanged. *)
Definition swapped (l : list (str * str * str)) : list (str * str * str) :=
  map (fun '(pre, X, Y) => (pre, Y, X)) l.

(** [leftmost_pairs a b l tail]: the cut is the one a scan from left to
    right makes.  Each pair of [l] is the first one of the text that starts
    at its [pre], and [tail] holds no pair. *)
Fixpoint leftmost_pairs (a b : string) (l : list (str * str * str))
    (tail : str) : Prop :=
  match l with
  | [] => forall w, is_pair a b w -> ~ occurs w tail
  | (pre, X, Y) :: l' =>
      quote_free X /\ quote_free Y /\
      (forall pre' w post',
          is_pair a b w ->
          pre ++ pair_text a b X Y ++ with_pairs a b l' tail
          = pre' ++ w ++ post' ->
          length pre <= length pre') /\
      leftmost_pairs a b l' tail
  end.

(** The leftmost match of [r] in [s] starts at [p]; [r] has no match in
    [s]. *)
Definition starts_at (r : regex) (s : str) (p : nat) : bool :=
  match search r s with
  | Some (q, _, _) => Nat.eqb q p
  | None => false
  end.

Definition no_match (r : regex) (s : str) : bool :=
  match search r s with
  | Some _ => false
  | None => true
  end.

(** [leftmost_pairs], decided by running the search. *)
Fixpoint check_pairs (a b : string) (l : list (str * str * str)) (tail : str)
    : bool :=
  match l with
  | [] => no_match (flip2_re a b) tail
  | (pre, X, Y) :: l' =>
      bool_decide (quote_free X) && bool_decide (quote_free Y)
      && starts_at (flip2_re a b)
           (pre ++ pair_text a b X Y ++ with_pairs a b l' tail) (length pre)
      && check_pairs a b l' tail
  end.

(** [is_div w]: [w] is [type='A' rend='B' rendition='C' subtype='D'] for
    values without a double quote. *)
Definition is_div (w : str) : Prop :=
  exists A B C D,
    quote_free A /\ quote_free B /\ quote_free C /\ quote_free D
    /\ w = div_text A B C D.

(** [canonical s]: the text holds none of the four orders that the rules of
    the Normalizer rewrite, anywhere. *)
Definition canonical (s : str) : Prop :=
  (forall w, is_pair "style" "rend" w -> ~ occurs w s) /\
  (forall w, is_pair "xmlns:math" "xmlns" w -> ~ occurs w s) /\
  (forall w, is_div w -> ~ occurs w s) /\
  (forall w, is_pair "moo" "MOO" w -> ~ occurs w s).

(** [canonical], decided by running the four searches. *)
Definition canonicalb (s : str) : bool :=
  no_match flip_rend_style_re s && no_match flip_xmlns_re s
  && no_match flip_div_attrs_re s && no_match flip_moo_re s.

(** How often the character [d] stands in [s]. *)
Fixpoint count (d : N) (s : str) : nat :=
  match s with
  | [] => 0
  | c :: s' => (if (c =? d)%N then 1 else 0) + count d s'
  end.

Abbreviation quotes := (count dq).
Abbreviation newlines := (count nl).

(** What the Normalizer still does to the data once the [style]/[rend]
    pairs are swapped (lines 98 to 101 and 105 to 107). *)
Definition after_rend_style (u : util) (data : str) : str :=
  if ie u then
    sub flip_div_attrs_re div_t (sub flip_xmlns_re swap_t data)
  else
    sub flip_moo_re swap_t (sub flip_div_attrs_re div_t data).

(** What the legacy Edge identity does to the data before it swaps the
    [moo]/[MOO] pairs (lines 103 to 106). *)
Definition before_moo (data : str) : str :=
  sub flip_div_attrs_re div_t (sub flip_rend_style_re swap_t data).

(** [s.find(w)] *)
Fixpoint find (s w : str) : option nat :=
  if startswith s w then Some 0
  else
    match s with
    | [] => None
    | _ :: s' =>
        match find s' w with
        | Some p => Some (S p)
        | None => None
        end
    end.

(** A text cut at separators: the segments before each separator, then the
    tail. *)
Fixpoint joined (sep : str) (segs : list str) (tail : str) : str :=
  match segs with
  | [] => tail
  | seg :: l => seg ++ sep ++ joined sep l tail
  end.

(** [leftmost_cuts sep segs tail]: the cut is the one a scan from left to
    right makes.  Each separator shown is the first one of the text that
    starts at its segment, and [tail] holds none. *)
Fixpoint leftmost_cuts (sep : str) (segs : list str) (tail : str) : Prop :=
  match segs with
  | [] => ~ occurs sep tail
  | seg :: l =>
      (forall pre' post',
          seg ++ sep ++ joined sep l tail = pre' ++ sep ++ post' ->
          length seg <= length pre') /\
      leftmost_cuts sep l tail
  end.

(** [leftmost_cuts], decided by running [find]. *)
Fixpoint check_cuts (sep : str) (segs : list str) (tail : str) : bool :=
  match segs with
  | [] => negb (contains tail sep)
  | seg :: l =>
      bool_decide (find (seg ++ sep ++ joined sep l tail) sep
                   = Some (length seg))
      && check_cuts sep l tail
  end.

(** White space only. *)
Definition all_space (s : str) : Prop := Forall (fun c => isspace c = true) s.

(** ** The vocabulary of the further properties *)

(** [div_canon A B C D] is [type='A' subtype='D' rend='B' rendition='C'],
    the order that [div_t] gives to [div_text A B C D]. *)
Definition div_canon (A B C D : str) : str :=
  attr "type" A ++ lit " " ++ attr "subtype" D ++ lit " " ++
  attr "rend" B ++ lit " " ++ attr "rendition" C.

(** A text cut at its groups of four attributes: each item is the text
    before a group and the four values; [f] writes a group out. *)
Fixpoint with_divs (f : str -> str -> str -> str -> str)
    (l : list (str * str * str * str * str)) (tail : str) : str :=
  match l with
  | [] => tail
  | (pre, A, B, C, D) :: l' => pre ++ f A B C D ++ with_divs f l' tail
  end.

(** [leftmost_divs l tail]: the cut is the one a scan from left to right
    makes. *)
Fixpoint leftmost_divs (l : list (str * str * str * str * str)) (tail : str)
    : Prop :=
  match l with
  | [] => forall w, is_div w -> ~ occurs w tail
  | (pre, A, B, C, D) :: l' =>
      quote_free A /\ quote_free B /\ quote_free C /\ quote_free D /\
      (forall pre' w post',
          is_div w ->
          pre ++ div_text A B C D ++ with_divs div_text l' tail
          = pre' ++ w ++ post' ->
          length pre <= length pre') /\
      leftmost_divs l' tail
  end.

(** [leftmost_divs], decided by running the search. *)
Fixpoint check_divs (l : list (str * str * str * str * str)) (tail : str)
    : bool :=
  match l with
  | [] => no_match flip_div_attrs_re tail
  | (pre, A, B, C, D) :: l' =>
      bool_decide (quote_free A) && bool_decide (quote_free B)
      && bool_decide (quote_free C) && bool_decide (quote_free D)
      && starts_at flip_div_attrs_re
           (pre ++ div_text A B C D ++ with_divs div_text l' tail) (length pre)
      && check_divs l' tail
  end.

(** What the Normalizer does to the data before the rule for the four
    attributes runs (lines 96 to 99, and 103 to 104), and after it (lines
    100 to 101, and 105 to 107). *)
Definition before_div (u : util) (data : str) : str :=
  if ie u then sub flip_xmlns_re swap_t (sub flip_rend_style_re swap_t data)
  else sub flip_rend_style_re swap_t data.

Definition after_div (u : util) (data : str) : str :=
  if ie u then data else sub flip_moo_re swap_t data.

(** The text of one saved object, [{body}]. *)
Definition obj (body : str) : str := lit "{" ++ body ++ lit "}".

(** ** Example payloads *)

(** A payload [{command: 'save', data: data, version: version}], decoded. *)
Definition demo_payload (version data : str) : gmap str (@value Empty_set) :=
  <[k_version := VStr version]> (expected_of data).

(** These payloads hold strings only, so [==] on other values is never
    asked. *)
Definition demo_eq (x y : Empty_set) : bool := true.

(** * Facts *)

(** ** Strings *)

Lemma strip_prefix_app (w s : str) : strip_prefix w (w ++ s) = Some s.
Proof.
  induction w as [|c w IH]; simpl; [done|].
  by rewrite N.eqb_refl.
Qed.

Lemma strip_prefix_Some (w s s' : str) :
  strip_prefix w s = Some s' -> s = w ++ s'.
Proof.
  revert s. induction w as [|c w IH]; intros s; simpl.
  - by intros [= ->].
  - destruct s as [|d s]; [done|].
    destruct (N.eqb_spec c d) as [->|]; [|done].
    intros H. by rewrite (IH _ H).
Qed.

Lemma strip_prefix_None (w s : str) :
  strip_prefix w s = None -> forall s', s <> w ++ s'.
Proof.
  intros H s' ->. by rewrite strip_prefix_app in H.
Qed.

Lemma startswith_true (s w : str) :
  startswith s w = true <-> exists s', s = w ++ s'.
Proof.
  unfold startswith. split.
  - destruct (strip_prefix w s) as [s'|] eqn:E; [|done].
    intros _. exists s'. by apply strip_prefix_Some.
  - intros [s' ->]. by rewrite strip_prefix_app.
Qed.

Lemma contains_occurs (s w : str) : contains s w = true <-> occurs w s.
Proof.
  induction s as [|c s IH].
  - simpl. rewrite orb_false_r, startswith_true. split.
    + intros [s' E]. by exists [], s'.
    + intros (pre & post & E). symmetry in E.
      apply app_eq_nil in E as [-> E]. apply app_eq_nil in E as [-> ->].
      by exists [].
  - cbn [contains]. rewrite orb_true_iff, IH, startswith_true. split.
    + intros [[s' E]|(pre & post & E)].
      * by exists [], s'.
      * exists (c :: pre), post. by rewrite E.
    + intros (pre & post & E). destruct pre as [|d pre].
      * left. by exists post.
      * right. injection E as -> ->. by exists pre, post.
Qed.

(** ** The matcher is sound for the words of the pattern *)

Section MatcherFacts.
Context {A : Type}.
Implicit Types (k : str -> option A) (s w : str).

Lemma star_m_sound gr cl s k a :
  star_m gr cl s k = Some a ->
  exists w s', s = w ++ s' /\ Forall (fun c => accepts cl c = true) w
               /\ k s' = Some a.
Proof.
  induction s as [|c s IH]; simpl.
  - intros H. by exists [], [].
  - destruct (accepts cl c) eqn:Hc; [|intros H; by exists [], (c :: s)].
    assert (star_m gr cl s k = Some a ->
            exists w s', c :: s = w ++ s'
              /\ Forall (fun c => accepts cl c = true) w /\ k s' = Some a)
      as Hrec.
    { intros H. destruct (IH H) as (w & s' & -> & Hw & Hk).
      exists (c :: w), s'. split; [done|]. split; [|done].
      by constructor. }
    destruct gr.
    + destruct (star_m true cl s k) as [b|] eqn:E.
      * intros [= ->]. by apply Hrec.
      * intros H. by exists [], (c :: s).
    + destruct (k (c :: s)) as [b|] eqn:E.
      * intros [= ->]. by exists [], (c :: s).
      * apply Hrec.
Qed.

(** If the continuation fails after every prefix, so does the star. *)
Lemma star_m_None gr cl s k :
  (forall w s', s = w ++ s' -> k s' = None) -> star_m gr cl s k = None.
Proof.
  intros H. destruct (star_m gr cl s k) as [a|] eqn:E; [|done].
  destruct (star_m_sound _ _ _ _ _ E) as (w & s' & Hs & _ & Hk).
  by rewrite (H _ _ Hs) in Hk.
Qed.

Lemma m_sound r s g (k : str -> groups -> option A) a :
  m r s g k = Some a ->
  exists w s' g', s = w ++ s' /\ lang r w /\ k s' g' = Some a.
Proof.
  revert s g k. induction r as [v|gr cl|r1 IH1 r2 IH2|n r IH];
    intros s g k; simpl.
  - destruct (strip_prefix v s) as [s'|] eqn:E; [|done].
    intros H. exists v, s', g. by rewrite (strip_prefix_Some _ _ _ E).
  - intros H. destruct (star_m_sound _ _ _ _ _ H) as (w & s' & -> & Hw & Hk).
    by exists w, s', g.
  - intros H. destruct (IH1 _ _ _ H) as (w1 & s1 & g1 & -> & Hw1 & H1).
    destruct (IH2 _ _ _ H1) as (w2 & s2 & g2 & -> & Hw2 & H2).
    exists (w1 ++ w2), s2, g2. rewrite <- app_assoc.
    split; [done|]. split; [|done]. by exists w1, w2.
  - intros H. destruct (IH _ _ _ H) as (w & s' & g' & -> & Hw & Hk).
    by exists w, s', ((n, take (length (w ++ s') - length s') (w ++ s')) :: g').
Qed.
End MatcherFacts.

Lemma match_here_sound r s n g :
  match_here r s = Some (n, g) ->
  exists w s', s = w ++ s' /\ lang r w /\ n = length w.
Proof.
  unfold match_here. intros H.
  destruct (m_sound _ _ _ _ _ H) as (w & s' & g' & -> & Hw & [= <- _]).
  exists w, s'. split; [done|]. split; [done|].
  rewrite length_app. lia.
Qed.

Lemma free_cons r c s : free r (c :: s) -> free r s.
Proof. intros H pre w post ->. by apply (H (c :: pre) w post). Qed.

Lemma free_match_here r s : free r s -> match_here r s = None.
Proof.
  intros H. destruct (match_here r s) as [[n g]|] eqn:E; [|done].
  destruct (match_here_sound _ _ _ _ E) as (w & s' & -> & Hw & _).
  by destruct (H [] w s').
Qed.

(** ** Substitution *)

Lemma sub_go_skip r t n s :
  n <= length s -> sub_go r t n s = sub_go r t 0 (drop n s).
Proof.
  revert s. induction n as [|n IH]; intros s Hn; [done|].
  destruct s as [|c s]; simpl in Hn; [lia|].
  simpl. apply IH. lia.
Qed.

(** Text without any match is left as it is. *)
Lemma sub_free r t s : free r s -> sub r t s = s.
Proof.
  unfold sub. induction s as [|c s IH]; intros H; simpl;
    rewrite (free_match_here _ _ H); [done|].
  f_equal. apply IH. by eapply free_cons.
Qed.

(** The leftmost match is replaced and the scan goes on behind it. *)
Lemma sub_first r t pre s n g :
  (forall p, p < length pre -> match_here r (drop p (pre ++ s)) = None) ->
  match_here r s = Some (S n, g) ->
  sub r t (pre ++ s) = pre ++ expand t g ++ sub r t (drop (S n) s).
Proof.
  unfold sub. induction pre as [|c pre IH]; intros Hpre Hs.
  - simpl app. destruct s as [|d s].
    { destruct (match_here_sound _ _ _ _ Hs) as (w & s' & E & _ & Hn).
      symmetry in E. apply app_eq_nil in E as [-> _]. done. }
    cbn [sub_go]. rewrite Hs. cbn [app drop]. f_equal.
    apply sub_go_skip.
    destruct (match_here_sound _ _ _ _ Hs) as (w & s' & E & _ & Hn).
    apply (f_equal length) in E. rewrite length_app in E. simpl in E. lia.
  - pose proof (Hpre 0 ltac:(simpl; lia)) as H0. cbn [drop app] in H0.
    cbn [app sub_go]. rewrite H0. f_equal. apply IH; [|done].
    intros p Hp. apply (Hpre (S p)). simpl. lia.
Qed.

(** ** The attribute patterns *)

Lemma quote_free_accepts (X : str) :
  quote_free X <-> Forall (fun c => accepts (AnyBut dq) c = true) X.
Proof.
  unfold quote_free. rewrite Forall_forall. split.
  - intros H c Hc. simpl. apply negb_true_iff, N.eqb_neq. by intros ->.
  - intros H Hq. by specialize (H _ Hq).
Qed.

Lemma lang_attr_re name w :
  lang (attr_re name) w <-> exists X, quote_free X /\ w = attr name X.
Proof.
  unfold attr. simpl. split.
  - intros (w1 & w2 & -> & -> & w3 & w4 & -> & Hw3 & ->).
    exists w3. split; [by apply quote_free_accepts|].
    by rewrite <- !app_assoc.
  - intros (X & HX & ->).
    exists (lit name ++ lit "='"), (X ++ lit "'").
    split; [by rewrite <- !app_assoc|]. split; [done|].
    exists X, (lit "'"). split; [done|]. split; [|done].
    by apply quote_free_accepts.
Qed.

Lemma lang_flip2_re a b w :
  lang (flip2_re a b) w <->
  exists X Y, quote_free X /\ quote_free Y /\ w = pair_text a b X Y.
Proof.
  unfold flip2_re, pair_text. cbn [lang]. split.
  - intros (w1 & w2 & -> & H1 & w3 & w4 & -> & -> & H4).
    apply lang_attr_re in H1 as (X & HX & ->).
    apply lang_attr_re in H4 as (Y & HY & ->). by exists X, Y.
  - intros (X & Y & HX & HY & ->).
    exists (attr a X), (lit " " ++ attr b Y). split; [done|].
    split; [apply lang_attr_re; by exists X|].
    exists (lit " "), (attr b Y). split; [done|]. split; [done|].
    apply lang_attr_re. by exists Y.
Qed.

Lemma lang_flip_div_attrs_re w :
  lang flip_div_attrs_re w <->
  exists A B C D, quote_free A /\ quote_free B /\ quote_free C /\ quote_free D
                  /\ w = div_text A B C D.
Proof.
  unfold flip_div_attrs_re, div_text. cbn [lang]. split.
  - intros (w1 & ? & -> & H1 & ? & ? & -> & -> & w2 & ? & -> & H2
            & ? & ? & -> & -> & w3 & ? & -> & H3 & ? & w4 & -> & -> & H4).
    apply lang_attr_re in H1 as (A & HA & ->).
    apply lang_attr_re in H2 as (B & HB & ->).
    apply lang_attr_re in H3 as (C & HC & ->).
    apply lang_attr_re in H4 as (D & HD & ->). by exists A, B, C, D.
  - intros (A & B & C & D & HA & HB & HC & HD & ->).
    eexists _, _. split; [done|]. split; [apply lang_attr_re; by exists A|].
    eexists _, _. split; [done|]. split; [done|].
    eexists _, _. split; [done|]. split; [apply lang_attr_re; by exists B|].
    eexists _, _. split; [done|]. split; [done|].
    eexists _, _. split; [done|]. split; [apply lang_attr_re; by exists C|].
    eexists _, _. split; [done|]. split; [done|].
    apply lang_attr_re. by exists D.
Qed.

(** *** Running the matcher on an attribute *)

Section RunFacts.
Context {A : Type}.

(** A lazy star passes over the characters on which its continuation
    fails. *)
Lemma star_m_lazy_skip cl (X s : str) (k : str -> option A) :
  Forall (fun c => accepts cl c = true) X ->
  (forall c s', c ∈ X -> k (c :: s') = None) ->
  star_m false cl (X ++ s) k = star_m false cl s k.
Proof.
  induction X as [|c X IH]; intros HX Hk; [done|].
  apply Forall_cons in HX as [Hc HX]. cbn [app star_m].
  rewrite Hc, (Hk c (X ++ s)); [|by left].
  apply IH; [done|]. intros d s' Hd. apply Hk. by right.
Qed.

(** A greedy star that succeeds still succeeds, with the same result,
    when more characters of its set come first. *)
Lemma star_m_greedy_app cl (X s : str) (k : str -> option A) a :
  Forall (fun c => accepts cl c = true) X ->
  star_m true cl s k = Some a ->
  star_m true cl (X ++ s) k = Some a.
Proof.
  induction X as [|c X IH]; intros HX Hs; [done|].
  apply Forall_cons in HX as [Hc HX]. cbn [app star_m].
  by rewrite Hc, (IH HX Hs).
Qed.

(** A greedy star takes nothing when its continuation fails after every
    character it could take. *)
Lemma star_m_greedy_here cl (s : str) (k : str -> option A) :
  (forall w s', w <> [] -> s = w ++ s' -> k s' = None) ->
  star_m true cl s k = k s.
Proof.
  intros H. destruct s as [|c s]; [done|]. cbn [star_m].
  destruct (accepts cl c); [|done].
  rewrite star_m_None; [done|].
  intros w s' ->. by apply (H (c :: w)).
Qed.

Lemma m_seq r1 r2 (s : str) g (k : str -> groups -> option A) :
  m (r1 >> r2) s g k = m r1 s g (fun s' g' => m r2 s' g' k).
Proof. done. Qed.

Lemma m_lit (w s : str) g (k : str -> groups -> option A) :
  m (Lit w) (w ++ s) g k = k s g.
Proof. cbn [m]. by rewrite strip_prefix_app. Qed.

Lemma m_attr_re name (X rest : str) g (k : str -> groups -> option A) :
  quote_free X ->
  m (attr_re name) (attr name X ++ rest) g k = k rest g.
Proof.
  intros HX. unfold attr_re, attr. cbn [m].
  rewrite <- !app_assoc, (app_assoc (lit name)), strip_prefix_app.
  rewrite star_m_lazy_skip.
  - simpl. done.
  - by apply quote_free_accepts.
  - intros c s' Hc. cbn [m]. change (lit "'") with [dq].
    cbn [strip_prefix].
    destruct (N.eqb_spec dq c) as [<-|]; [by destruct HX|done].
Qed.

Lemma m_group_attr_re n name (X rest : str) g
    (k : str -> groups -> option A) :
  quote_free X ->
  m (Group n (attr_re name)) (attr name X ++ rest) g k
  = k rest ((n, attr name X) :: g).
Proof.
  intros HX. cbn [m]. rewrite m_attr_re by done.
  do 3 f_equal. rewrite length_app.
  replace (length (attr name X) + length rest - length rest)
    with (length (attr name X)) by lia.
  apply take_app_length.
Qed.
End RunFacts.

(** The matcher finds a pair that starts the text, whatever follows. *)
Lemma match_here_flip2 a b (X Y post : str) :
  quote_free X -> quote_free Y ->
  match_here (flip2_re a b) (pair_text a b X Y ++ post)
  = Some (length (pair_text a b X Y), [(2, attr b Y); (1, attr a X)]).
Proof.
  intros HX HY. unfold match_here, flip2_re.
  rewrite m_seq. unfold pair_text at 1. rewrite <- !app_assoc.
  rewrite m_group_attr_re, m_seq, m_lit, m_group_attr_re by done.
  do 2 f_equal. rewrite !length_app. lia.
Qed.

(** ** Rewriting the pairs of a text, from left to right *)

Lemma free_flip2 a b s :
  (forall w, is_pair a b w -> ~ occurs w s) <-> free (flip2_re a b) s.
Proof.
  split.
  - intros H pre w post -> Hw. apply lang_flip2_re in Hw.
    apply (H w Hw). by exists pre, post.
  - intros H w Hw (pre & post & ->).
    apply (H pre w post eq_refl). by apply lang_flip2_re.
Qed.

Lemma pair_text_length a b X Y :
  exists n, length (pair_text a b X Y) = S n.
Proof.
  unfold pair_text. rewrite !length_app. simpl.
  exists (length (attr a X) + length (attr b Y)). lia.
Qed.

Lemma expand_swap_t (x y : str) :
  expand swap_t [(2, y); (1, x)] = y ++ lit " " ++ x.
Proof. simpl. by rewrite app_nil_r. Qed.

(** The first pair of the text is swapped, and the scan goes on behind
    it. *)
Lemma sub_flip2_first a b (pre X Y post : str) :
  quote_free X -> quote_free Y ->
  (forall pre' w post',
      is_pair a b w ->
      pre ++ pair_text a b X Y ++ post = pre' ++ w ++ post' ->
      length pre <= length pre') ->
  sub (flip2_re a b) swap_t (pre ++ pair_text a b X Y ++ post)
  = pre ++ pair_text b a Y X ++ sub (flip2_re a b) swap_t post.
Proof.
  intros HX HY Hleft.
  destruct (pair_text_length a b X Y) as [n Hn].
  rewrite (sub_first _ _ pre _ n [(2, attr b Y); (1, attr a X)]).
  - rewrite expand_swap_t, <- Hn, drop_app_length.
    unfold pair_text. by rewrite <- !app_assoc.
  - intros p Hp.
    destruct (match_here _ _) as [[k g]|] eqn:E; [|done]. exfalso.
    destruct (match_here_sound _ _ _ _ E) as (w & s' & Hs & Hw & _).
    apply lang_flip2_re in Hw.
    assert (length pre <= length (take p (pre ++ pair_text a b X Y ++ post)))
      as Hle.
    { apply (Hleft _ w s' Hw). by rewrite <- Hs, take_drop. }
    rewrite length_take in Hle. lia.
  - rewrite <- Hn. by apply match_here_flip2.
Qed.

(** Every pair the scan meets is swapped. *)
Lemma sub_flip2_pairs a b l tail :
  leftmost_pairs a b l tail ->
  sub (flip2_re a b) swap_t (with_pairs a b l tail)
  = with_pairs b a (swapped l) tail.
Proof.
  induction l as [|[[pre X] Y] l IH]; cbn [leftmost_pairs with_pairs swapped map].
  - intros H. apply sub_free. by apply free_flip2.
  - intros (HX & HY & Hleft & Hl).
    rewrite sub_flip2_first by done. by rewrite (IH Hl).
Qed.

(** ** The matcher is complete for the words of the pattern *)

Section Completeness.
Context {A : Type}.

Lemma star_m_complete gr cl (w s' : str) (k : str -> option A) :
  Forall (fun c => accepts cl c = true) w ->
  is_Some (k s') -> is_Some (star_m gr cl (w ++ s') k).
Proof.
  intros Hw Hk. induction Hw as [|c w Hc Hw IH]; cbn [app].
  - destruct s' as [|c s'']; cbn [star_m]; [done|].
    destruct (accepts cl c); [|done].
    destruct gr; [|by destruct Hk as [a ->]].
    by destruct (star_m true cl s'' k).
  - cbn [star_m]. rewrite Hc. destruct gr.
    + by destruct IH as [a ->].
    + by destruct (k (c :: w ++ s')).
Qed.

Lemma m_complete r (w s' : str) g (k : str -> groups -> option A) :
  lang r w -> (forall g', is_Some (k s' g')) ->
  is_Some (m r (w ++ s') g k).
Proof.
  revert w s' g k. induction r as [v|gr cl|r1 IH1 r2 IH2|n r IH];
    intros w s' g k Hw Hk; cbn [m lang] in *.
  - subst w. by rewrite strip_prefix_app.
  - by apply star_m_complete.
  - destruct Hw as (w1 & w2 & -> & H1 & H2). rewrite <- app_assoc.
    apply IH1; [done|]. intros g'. by apply IH2.
  - apply IH; [done|]. intros g'. apply Hk.
Qed.
End Completeness.

Lemma match_here_complete r (w post : str) :
  lang r w -> is_Some (match_here r (w ++ post)).
Proof. intros Hw. by apply m_complete. Qed.

(** ** Searching *)

Lemma search_None r s q : search r s = None -> match_here r (drop q s) = None.
Proof.
  revert q. induction s as [|c s IH]; intros q; cbn [search].
  - destruct (match_here r []) as [[n g]|] eqn:E; [done|].
    by rewrite drop_nil.
  - destruct (match_here r (c :: s)) as [[n g]|] eqn:E; [done|].
    destruct (search r s) as [[[p n] g]|] eqn:E'; [done|]. intros _.
    destruct q as [|q]; [done|]. by apply IH.
Qed.

Lemma search_Some r s p n g :
  search r s = Some (p, n, g) ->
  forall q, q < p -> match_here r (drop q s) = None.
Proof.
  revert p. induction s as [|c s IH]; intros p; cbn [search].
  - destruct (match_here r []) as [[n' g']|]; [|done].
    intros [= <- _ _] q Hq. lia.
  - destruct (match_here r (c :: s)) as [[n' g']|] eqn:E.
    { intros [= <- _ _] q Hq. lia. }
    destruct (search r s) as [[[p' n'] g']|] eqn:E'; [|done].
    intros [= <- <- <-] q Hq. destruct q as [|q]; [done|].
    apply (IH p' eq_refl). lia.
Qed.

Lemma no_match_before r (s pre w post : str) :
  lang r w -> s = pre ++ w ++ post ->
  match_here r (drop (length pre) s) <> None.
Proof.
  intros Hw -> H. rewrite drop_app_length in H.
  destruct (match_here_complete r w post Hw) as [x Hx]. congruence.
Qed.

Lemma search_free r s : search r s = None -> free r s.
Proof.
  intros H pre w post Hs Hw.
  apply (no_match_before r s pre w post Hw Hs). by apply search_None.
Qed.

Lemma search_leftmost r s p n g (pre w post : str) :
  search r s = Some (p, n, g) ->
  lang r w -> s = pre ++ w ++ post -> p <= length pre.
Proof.
  intros H Hw Hs. destruct (decide (p <= length pre)) as [|Hlt]; [done|].
  destruct (no_match_before r s pre w post Hw Hs).
  apply (search_Some _ _ _ _ _ H). lia.
Qed.

Lemma search_Some_match r s p n g :
  search r s = Some (p, n, g) ->
  p <= length s /\ match_here r (drop p s) = Some (n, g).
Proof.
  revert p. induction s as [|c s IH]; intros p; cbn [search].
  - destruct (match_here r []) as [[n' g']|] eqn:E; [|done].
    by intros [= <- <- <-].
  - destruct (match_here r (c :: s)) as [[n' g']|] eqn:E.
    { intros [= <- <- <-]. split; [simpl; lia|done]. }
    destruct (search r s) as [[[p' n'] g']|] eqn:E'; [|done].
    intros [= <- <- <-]. destruct (IH p' eq_refl) as [Hp Hm].
    split; [simpl; lia|done].
Qed.

(** *** Checking a cut by running the search *)

Lemma no_match_free r s : no_match r s = true -> free r s.
Proof.
  unfold no_match. destruct (search r s) eqn:E; [done|].
  intros _. by apply search_free.
Qed.

Lemma check_pairs_sound a b l tail :
  check_pairs a b l tail = true -> leftmost_pairs a b l tail.
Proof.
  induction l as [|[[pre X] Y] l IH]; cbn [check_pairs leftmost_pairs].
  - intros H. by apply free_flip2, no_match_free.
  - rewrite !andb_true_iff, !bool_decide_eq_true.
    intros [[[HX HY] Hs] Hl]. split; [done|]. split; [done|].
    split; [|by apply IH].
    intros pre' w post' Hw E. unfold starts_at in Hs.
    destruct (search _ _) as [[[p n] g]|] eqn:Es; [|done].
    apply Nat.eqb_eq in Hs as <-.
    eapply search_leftmost; [exact Es| |exact E]. by apply lang_flip2_re.
Qed.

(** Every text has the cut that the scan makes. *)
Lemma pairs_cut_exists a b (s : str) :
  exists l tail, s = with_pairs a b l tail /\ leftmost_pairs a b l tail.
Proof.
  induction s as [s IH] using (induction_ltof1 _ (@length N)).
  unfold ltof in IH.
  destruct (search (flip2_re a b) s) as [[[p n] g]|] eqn:Es.
  - destruct (search_Some_match _ _ _ _ _ Es) as [Hp Hm].
    apply match_here_sound in Hm as (w & s' & Hs & Hw & _).
    pose proof Hw as (X & Y & HX & HY & ->)%lang_flip2_re.
    destruct (pair_text_length a b X Y) as [k Hk].
    assert (s = take p s ++ pair_text a b X Y ++ s') as E.
    { by rewrite <- Hs, take_drop. }
    destruct (IH s') as (l & tail & -> & Hl).
    { apply (f_equal length) in E. rewrite !length_app in E. lia. }
    exists ((take p s, X, Y) :: l), tail. cbn [with_pairs leftmost_pairs].
    split; [done|]. split; [done|]. split; [done|]. split; [|done].
    intros pre' w post' Hw' E'. rewrite <- E in E'.
    rewrite length_take_le by done.
    eapply search_leftmost; [exact Es| |exact E']. by apply lang_flip2_re.
  - exists [], s. split; [done|]. cbn [leftmost_pairs].
    by apply free_flip2, search_free.
Qed.

(** ** Canonical attribute order *)

Lemma free_flip_div_attrs_re s :
  (forall w, is_div w -> ~ occurs w s) <-> free flip_div_attrs_re s.
Proof.
  split.
  - intros H pre w post -> Hw. apply lang_flip_div_attrs_re in Hw.
    apply (H w Hw). by exists pre, post.
  - intros H w Hw (pre & post & ->).
    apply (H pre w post eq_refl). by apply lang_flip_div_attrs_re.
Qed.

Lemma canonical_free s :
  canonical s <->
  free flip_rend_style_re s /\ free flip_xmlns_re s
  /\ free flip_div_attrs_re s /\ free flip_moo_re s.
Proof.
  unfold canonical.
  by rewrite !free_flip2, free_flip_div_attrs_re.
Qed.

Lemma canonicalb_sound s : canonicalb s = true -> canonical s.
Proof.
  unfold canonicalb. rewrite !andb_true_iff, canonical_free.
  intros [[[H1 H2] H3] H4]. auto using no_match_free.
Qed.

(** ** Counting a character *)

Lemma count_app d (s t : str) : count d (s ++ t) = count d s + count d t.
Proof. induction s as [|c s IH]; simpl; [done|]. rewrite IH. lia. Qed.

Lemma count_0 d (X : str) : count d X = 0 <-> d ∉ X.
Proof.
  induction X as [|c X IH]; simpl.
  - split; [|done]. intros _ H. by apply elem_of_nil in H.
  - rewrite not_elem_of_cons, <- IH.
    destruct (N.eqb_spec c d) as [->|Hc]; [|split].
    + split; [lia|]. by intros [? _].
    + intros H. split; [congruence|lia].
    + intros [_ H]. lia.
Qed.

Lemma quotes_app (s t : str) : quotes (s ++ t) = quotes s + quotes t.
Proof. apply count_app. Qed.

Lemma quotes_free (X : str) : quotes X = 0 <-> quote_free X.
Proof. apply count_0. Qed.

Lemma quotes_attr name X :
  quotes (lit name) = 0 -> quote_free X -> quotes (attr name X) = 2.
Proof.
  intros Hn HX. apply quotes_free in HX. unfold attr.
  rewrite !quotes_app, Hn, HX. done.
Qed.

Lemma quotes_pair_text a b X Y :
  quotes (lit a) = 0 -> quotes (lit b) = 0 ->
  quote_free X -> quote_free Y -> quotes (pair_text a b X Y) = 4.
Proof.
  intros. unfold pair_text. rewrite !quotes_app, !quotes_attr by done. done.
Qed.

Lemma quotes_div_text A B C D :
  quote_free A -> quote_free B -> quote_free C -> quote_free D ->
  quotes (div_text A B C D) = 8.
Proof.
  intros. unfold div_text. rewrite !quotes_app, !quotes_attr by done. done.
Qed.

(** Two cuts of one text at its first double quote are the same cut. *)
Lemma split_first_quote (u u' v v' : str) :
  quote_free u -> quote_free u' ->
  u ++ dq :: v = u' ++ dq :: v' -> u = u' /\ v = v'.
Proof.
  unfold quote_free. revert u'.
  induction u as [|c u IH]; intros [|c' u'] Hu Hu' E; simpl in E.
  - by injection E as ->.
  - injection E as <- _. destruct Hu'. by left.
  - injection E as -> _. destruct Hu. by left.
  - injection E as -> E. apply not_elem_of_cons in Hu as [_ Hu].
    apply not_elem_of_cons in Hu' as [_ Hu'].
    destruct (IH _ Hu Hu' E) as [-> ->]. done.
Qed.

(** Where a pair lies inside another pair, the first names end at the same
    place. *)
Lemma pair_in_pair a b a' b' (X Y X' Y' pre post : str) :
  quotes (lit a) = 0 -> quotes (lit b) = 0 ->
  quotes (lit a') = 0 -> quotes (lit b') = 0 ->
  quote_free X -> quote_free Y -> quote_free X' -> quote_free Y' ->
  pair_text a b X Y = pre ++ pair_text a' b' X' Y' ++ post ->
  lit a ++ lit "=" = pre ++ lit a' ++ lit "=".
Proof.
  intros Ha Hb Ha' Hb' HX HY HX' HY' E.
  assert (quotes pre = 0) as Hpre.
  { apply (f_equal quotes) in E.
    rewrite !quotes_app, !quotes_pair_text in E by done. lia. }
  unfold pair_text, attr in E.
  change (lit "='") with (lit "=" ++ [dq]) in E.
  rewrite <- !app_assoc in E. cbn [app] in E.
  rewrite (app_assoc (lit a)), (app_assoc pre), (app_assoc (pre ++ lit a'))
    in E.
  apply split_first_quote in E as [E _]; [by rewrite <- app_assoc in E| |].
  - apply quotes_free. by rewrite quotes_app, Ha.
  - apply quotes_free. by rewrite !quotes_app, Hpre, Ha'.
Qed.

(** A pair holds no pair whose first name is not an end of its own. *)
Lemma free_flip2_pair_text a b a' b' (X Y : str) :
  quotes (lit a) = 0 -> quotes (lit b) = 0 ->
  quotes (lit a') = 0 -> quotes (lit b') = 0 ->
  quote_free X -> quote_free Y ->
  (forall pre, lit a <> pre ++ lit a') ->
  free (flip2_re a' b') (pair_text a b X Y).
Proof.
  intros Ha Hb Ha' Hb' HX HY Hne. apply free_flip2.
  intros w (X' & Y' & HX' & HY' & ->) (pre & post & E).
  apply pair_in_pair in E; try done.
  apply (Hne pre). rewrite app_assoc in E. by apply app_inv_tail in E.
Qed.

Lemma free_div_pair_text a b (X Y : str) :
  quotes (lit a) = 0 -> quotes (lit b) = 0 ->
  quote_free X -> quote_free Y ->
  free flip_div_attrs_re (pair_text a b X Y).
Proof.
  intros Ha Hb HX HY. apply free_flip_div_attrs_re.
  intros w (A & B & C & D & HA & HB & HC & HD & ->) (pre & post & E).
  apply (f_equal quotes) in E.
  rewrite !quotes_app, quotes_pair_text, quotes_div_text in E by done. lia.
Qed.

(** The canonical pair [MOO='Y' moo='X'] is in canonical order, and the
    pair [moo='X' MOO='Y'] holds nothing that the rules of the legacy IE
    identity rewrite. *)
Lemma canonical_MOO_moo (X Y : str) :
  quote_free X -> quote_free Y -> canonical (pair_text "MOO" "moo" Y X).
Proof.
  intros HX HY. apply canonical_free.
  repeat split;
    try (by apply free_div_pair_text);
    apply free_flip2_pair_text; try done;
    intros pre E; apply (f_equal length) in E as El;
    rewrite length_app in El; simpl in El; try lia.
  destruct pre; [by vm_compute in E|simpl in El; lia].
Qed.

Lemma free_moo_MOO (X Y : str) :
  quote_free X -> quote_free Y ->
  free flip_rend_style_re (pair_text "moo" "MOO" X Y)
  /\ free flip_xmlns_re (pair_text "moo" "MOO" X Y)
  /\ free flip_div_attrs_re (pair_text "moo" "MOO" X Y).
Proof.
  intros HX HY.
  repeat split;
    try (by apply free_div_pair_text);
    apply free_flip2_pair_text; try done;
    intros pre E; apply (f_equal length) in E as El;
    rewrite length_app in El; simpl in El; lia.
Qed.

(** * The claims *)

(** ** C3: the Normalizer on canonical input *)

Lemma normalize_free (u : util) (s : str) :
  free flip_rend_style_re s -> free flip_xmlns_re s ->
  free flip_div_attrs_re s -> free flip_moo_re s ->
  normalize u s = s.
Proof.
  intros H1 H2 H3 H4. unfold normalize.
  destruct (ie u);
    [by rewrite (sub_free flip_rend_style_re), (sub_free flip_xmlns_re),
                (sub_free flip_div_attrs_re)|].
  destruct (edge u); [|done].
  by rewrite (sub_free flip_rend_style_re), (sub_free flip_div_attrs_re),
             (sub_free flip_moo_re).
Qed.

(** On other input the Normalizer need not reach a fixed point in one run:
    a pair can come to stand where the scan has passed already. *)
Remark normalize_twice :
  normalize legacy_ie (lit "style='a' style='b' rend='c'")
  = lit "style='a' rend='c' style='b'"
  /\ normalize legacy_ie (lit "style='a' rend='c' style='b'")
     = lit "rend='c' style='a' style='b'".
Proof. split; by vm_compute. Qed.

(** C3 as stated fails.  The text
    [type='style=' subtype=' rend=' rend='B' rendition='C'] has its four
    attributes in the canonical order, with values that hold no double
    quote, and yet the legacy IE and the legacy Edge identity rewrite it:
    the rule for [style] and [rend] finds a pair that runs across the
    values.  Nor is a text that the Normalizer has produced left as it is
    by a second run. *)
Lemma canonical_order_rewritten :
  lit "type='style=' subtype=' rend=' rend='B' rendition='C'"
  = div_canon (lit "style=") (lit "B") (lit "C") (lit " rend=")
  /\ normalize legacy_ie
       (lit "type='style=' subtype=' rend=' rend='B' rendition='C'")
     = lit "type='rend=' rend=' style=' subtype='B' rendition='C'"
  /\ normalize legacy_edge
       (lit "type='style=' subtype=' rend=' rend='B' rendition='C'")
     = lit "type='rend=' rend=' style=' subtype='B' rendition='C'"
  /\ ~ (forall u A B C D,
           quote_free A -> quote_free B -> quote_free C -> quote_free D ->
           normalize u (div_canon A B C D) = div_canon A B C D)
  /\ ~ (forall u s, normalize u (normalize u s) = normalize u s).
Proof.
  split; [by vm_compute|]. split; [by vm_compute|]. split; [by vm_compute|].
  split.
  - intros H.
    specialize (H legacy_ie (lit "style=") (lit "B") (lit "C") (lit " rend=")).
    assert (normalize legacy_ie
              (div_canon (lit "style=") (lit "B") (lit "C") (lit " rend="))
            = div_canon (lit "style=") (lit "B") (lit "C") (lit " rend="))
      as E.
    { apply H; apply quotes_free; reflexivity. }
    by vm_compute in E.
  - intros H.
    specialize (H legacy_ie (lit "style='a' style='b' rend='c'")).
    by vm_compute in H.
Qed.

(** C3, amended.  For every browser identity (every setting of the two
    flags the step reads) and every text that holds none of the four
    attribute orders the rules rewrite, that is, no text of the shape of one
    of the four patterns anywhere, not even across attribute values, the
    Normalizer returns the text unchanged. *)
Theorem normalize_canonical (u : util) (s : str) :
  canonical s -> normalize u s = s.
Proof.
  intros (H1 & H2 & H3 & H4)%canonical_free. by apply normalize_free.
Qed.

(** Both documents of the expected-data table are in canonical order. *)
Lemma expected_canonical :
  canonical expected_namespaces /\ canonical expected_top_namespaces.
Proof. split; apply canonicalb_sound; by vm_compute. Qed.

(** C3, amended, at the first document of the table, for the legacy Edge
    identity. *)
Lemma normalize_canonical_witness :
  canonical expected_namespaces
  /\ normalize legacy_edge expected_namespaces = expected_namespaces.
Proof.
  split.
  - apply canonicalb_sound. by vm_compute.
  - apply (normalize_canonical legacy_edge expected_namespaces).
    apply canonicalb_sound. by vm_compute.
Defined.

(** ** C4: [style] before [rend] *)

(** C4 as stated fails.  The two pairs of
    [style='astyle=' rend=' rend='b'] overlap; the scan swaps the first and
    passes over the second, whose swapped form [rend='b' style=' rend=']
    is nowhere in the result.  And what the first step has swapped a later
    step may rewrite again: the only pair of the second text,
    [style=' rendition=' rend=' rend='], is swapped and then taken apart by
    the rule for [type], [rend], [rendition] and [subtype]. *)
Lemma rend_style_overlapping_pair :
  normalize legacy_ie (lit "style='astyle=' rend=' rend='b'")
  = lit "rend=' rend=' style='astyle='b'"
  /\ normalize legacy_ie
       (lit "type='style=' rendition=' rend=' rend='C' subtype='D'")
     = lit "type='rend=' subtype='D' rend=' style=' rendition='C'"
  /\ ~ (forall u data pre X Y post,
           ie u = true \/ edge u = true ->
           quote_free X -> quote_free Y ->
           data = pre ++ pair_text "style" "rend" X Y ++ post ->
           occurs (pair_text "rend" "style" Y X) (normalize u data)).
Proof.
  split; [by vm_compute|]. split; [by vm_compute|].
  intros H.
  specialize (H legacy_ie (lit "style='astyle=' rend=' rend='b'")
                (lit "style='a") (lit " rend=") (lit "b") []).
  apply contains_occurs in H; [by vm_compute in H|by left| | |done].
  - apply quotes_free. done.
  - apply quotes_free. done.
Qed.

(** C4, amended.  For the legacy IE and the legacy Edge identity the first
    step of the Normalizer swaps every pair [style='X' rend='Y'] (X and Y
    without a double quote) that a scan from left to right meets, to
    [rend='Y' style='X']; a pair that starts inside a pair already swapped is
    passed over.  Every data string has such a cut, and the later steps of
    the identity run on the text with the pairs of the cut swapped.  The
    fixed pair [style='a' rend='b'] becomes [rend='b' style='a']. *)
Theorem rend_style_pairs_swapped (u : util) (data : str) :
  ie u = true \/ edge u = true ->
  (exists l tail,
      data = with_pairs "style" "rend" l tail
      /\ leftmost_pairs "style" "rend" l tail)
  /\ (forall l tail,
         data = with_pairs "style" "rend" l tail ->
         leftmost_pairs "style" "rend" l tail ->
         normalize u data
         = after_rend_style u (with_pairs "rend" "style" (swapped l) tail))
  /\ normalize u (lit "style='a' rend='b'") = lit "rend='b' style='a'".
Proof.
  intros Hu. split; [apply pairs_cut_exists|]. split.
  - intros l tail -> Hl. unfold normalize, after_rend_style.
    change flip_rend_style_re with (flip2_re "style" "rend").
    destruct (ie u) eqn:Hie; [by rewrite sub_flip2_pairs|].
    destruct (edge u) eqn:Hedge; [by rewrite sub_flip2_pairs|].
    by destruct Hu.
  - unfold normalize.
    destruct (ie u) eqn:Hie; [by vm_compute|].
    destruct (edge u) eqn:Hedge; [by vm_compute|]. by destruct Hu.
Qed.

(** C4 at a text with two pairs, for the legacy IE identity; the later
    steps find nothing to rewrite in it. *)
Lemma rend_style_pairs_swapped_witness :
  normalize legacy_ie (lit "<p style='s' rend='r'>x</p><hi style='' rend='q'/>")
  = lit "<p rend='r' style='s'>x</p><hi rend='q' style=''/>".
Proof.
  refine (proj1 (proj2
            (rend_style_pairs_swapped legacy_ie
               (lit "<p style='s' rend='r'>x</p><hi style='' rend='q'/>")
               (or_introl eq_refl)))
            [(lit "<p ", lit "s", lit "r"); (lit ">x</p><hi ", [], lit "q")]
            (lit "/>") eq_refl _).
  apply check_pairs_sound. by vm_compute.
Defined.

(** ** C6: [moo] before [MOO] *)

(** C6 as stated fails, in the same way as C4.  The two pairs of
    [moo='amoo=' MOO=' MOO='b'] overlap; the first is swapped, and the
    swapped form [MOO='b' moo=' MOO='] of the second is nowhere in the
    result.  And a pair of the data may be gone before the rule runs: in the
    second text the rule for [style] and [rend] takes the pair
    [moo=' rend=' MOO='b'] apart. *)
Lemma moo_overlapping_pair :
  normalize legacy_edge (lit "moo='amoo=' MOO=' MOO='b'")
  = lit "MOO=' MOO=' moo='amoo='b'"
  /\ normalize legacy_edge (lit "style='moo=' rend=' MOO='b'")
     = lit "rend=' MOO=' style='moo='b'"
  /\ ~ (forall data pre X Y post,
           quote_free X -> quote_free Y ->
           data = pre ++ pair_text "moo" "MOO" X Y ++ post ->
           occurs (pair_text "MOO" "moo" Y X) (normalize legacy_edge data)).
Proof.
  split; [by vm_compute|]. split; [by vm_compute|].
  intros H.
  specialize (H (lit "moo='amoo=' MOO=' MOO='b'")
                (lit "moo='a") (lit " MOO=") (lit "b") []).
  apply contains_occurs in H; [by vm_compute in H| | |done].
  - apply quotes_free. done.
  - apply quotes_free. done.
Qed.

(** C6, amended.  For the legacy Edge identity [u] the last step of the
    Normalizer swaps every pair [moo='X' MOO='Y'] (X and Y without a double
    quote) that a scan from left to right meets in the text the two earlier
    steps produced, to [MOO='Y' moo='X']; a pair that starts inside a pair
    already swapped is passed over.  Every such text has such a cut.  The
    names are matched with their case: no identity rewrites the canonical
    [MOO='Y' moo='X'].  The rule belongs to that identity alone: an identity
    [u'] that is the legacy IE one or the default one leaves
    [moo='X' MOO='Y'] as it is. *)
Theorem moo_pairs_swapped (u u' : util) (data X Y : str) :
  ie u = false -> edge u = true ->
  ie u' = true \/ edge u' = false ->
  quote_free X -> quote_free Y ->
  (exists l tail,
      before_moo data = with_pairs "moo" "MOO" l tail
      /\ leftmost_pairs "moo" "MOO" l tail)
  /\ (forall l tail,
         before_moo data = with_pairs "moo" "MOO" l tail ->
         leftmost_pairs "moo" "MOO" l tail ->
         normalize u data = with_pairs "MOO" "moo" (swapped l) tail)
  /\ normalize u (pair_text "MOO" "moo" Y X) = pair_text "MOO" "moo" Y X
  /\ normalize u' (pair_text "MOO" "moo" Y X) = pair_text "MOO" "moo" Y X
  /\ normalize u' (pair_text "moo" "MOO" X Y) = pair_text "moo" "MOO" X Y.
Proof.
  intros Hie Hedge Hu' HX HY.
  pose proof (canonical_MOO_moo X Y HX HY) as Hcanon.
  split; [apply pairs_cut_exists|]. split; [|split; [|split]].
  - intros l tail Hdata Hl.
    unfold normalize. rewrite Hie, Hedge. fold (before_moo data).
    rewrite Hdata. by apply (sub_flip2_pairs "moo" "MOO").
  - apply canonical_free in Hcanon as (? & ? & ? & ?). by apply normalize_free.
  - apply canonical_free in Hcanon as (? & ? & ? & ?). by apply normalize_free.
  - destruct (free_moo_MOO X Y HX HY) as (H1 & H2 & H3).
    unfold normalize. destruct (ie u') eqn:Hie'.
    + by rewrite (sub_free flip_rend_style_re), (sub_free flip_xmlns_re),
                 (sub_free flip_div_attrs_re).
    + destruct Hu' as [Ht|He]; [done|]. by rewrite He.
Qed.

(** C6 at the paragraph of the first document of the table, as the legacy
    Edge identity serialises it. *)
Lemma moo_pairs_swapped_witness :
  normalize legacy_edge (lit "<p moo='b' MOO='a'/>") = lit "<p MOO='a' moo='b'/>"
  /\ normalize legacy_edge (lit "MOO='a' moo='b'") = lit "MOO='a' moo='b'"
  /\ normalize legacy_ie (lit "MOO='a' moo='b'") = lit "MOO='a' moo='b'"
  /\ normalize legacy_ie (lit "moo='b' MOO='a'") = lit "moo='b' MOO='a'".
Proof.
  destruct (moo_pairs_swapped legacy_edge legacy_ie
              (lit "<p moo='b' MOO='a'/>") (lit "b") (lit "a")
              eq_refl eq_refl (or_introl eq_refl))
    as (_ & Hswap & Hcanon).
  - apply quotes_free. reflexivity.
  - apply quotes_free. reflexivity.
  - split; [|exact Hcanon].
    apply (Hswap [(lit "<p ", lit "b", lit "a")] (lit "/>")).
    + by vm_compute.
    + apply check_pairs_sound. by vm_compute.
Defined.

(** ** C1: the repair of the payload *)

Lemma lang_last_obj_re w :
  lang last_obj_re w <-> exists u, (nl ∉ u) /\ w = u ++ lit "}{".
Proof.
  unfold last_obj_re. cbn [lang]. split.
  - intros (u & ? & -> & Hu & ->). exists u. split; [|done].
    intros Hin. rewrite Forall_forall in Hu. by specialize (Hu _ Hin).
  - intros (u & Hu & ->). exists u, (lit "}{"). split; [done|].
    split; [|done]. apply Forall_forall. intros c Hc. simpl.
    apply negb_true_iff, N.eqb_neq. by intros ->.
Qed.

Lemma free_last_obj_re (s : str) :
  ~ occurs (lit "}{") s -> free last_obj_re s.
Proof.
  intros H pre w post -> Hw.
  apply lang_last_obj_re in Hw as (u & _ & ->). apply H.
  exists (pre ++ u), post. by rewrite <- !app_assoc.
Qed.

Lemma match_here_last_obj_re (pre rest : str) :
  nl ∉ pre -> ~ occurs (lit "}{") rest ->
  match_here last_obj_re (pre ++ lit "}{" ++ rest)
  = Some (S (S (length pre)), []).
Proof.
  intros Hpre Hrest. unfold match_here, last_obj_re.
  rewrite m_seq. cbn [m].
  assert (length (pre ++ lit "}{" ++ rest) - length rest = S (S (length pre)))
    as <-.
  { rewrite !length_app. simpl. lia. }
  apply star_m_greedy_app.
  { apply Forall_forall. intros c Hc. simpl.
    apply negb_true_iff, N.eqb_neq. by intros ->. }
  rewrite star_m_greedy_here; [by rewrite strip_prefix_app|].
  intros w s' Hw E.
  destruct (strip_prefix (lit "}{") s') as [s''|] eqn:Es; [|done].
  apply strip_prefix_Some in Es as ->. exfalso.
  destruct w as [|c [|d w]]; [done|by vm_compute in E|].
  injection E as _ _ ->. apply Hrest. by exists w, s''.
Qed.

Lemma expand_brace_t g : expand brace_t g = lit "{".
Proof. done. Qed.

Lemma repair_last_object (pre rest : str) :
  nl ∉ pre -> ~ occurs (lit "}{") rest ->
  repair (pre ++ lit "}{" ++ rest) = lit "{" ++ rest.
Proof.
  intros Hpre Hrest. unfold repair.
  pose proof (sub_first last_obj_re brace_t [] (pre ++ lit "}{" ++ rest)
                (S (length pre)) []) as H.
  cbn [app] in H. rewrite H; clear H.
  - rewrite expand_brace_t. cbn [app]. f_equal.
    replace (S (S (length pre))) with (length pre + 2) by lia.
    rewrite <- drop_drop, drop_app_length. cbn [drop lit app].
    by apply sub_free, free_last_obj_re.
  - simpl. lia.
  - by apply match_here_last_obj_re.
Qed.

(** The repair neither adds nor removes a newline. *)
Lemma repair_newlines (s : str) : newlines (repair s) = newlines s.
Proof.
  unfold repair, sub.
  induction s as [s IH] using (induction_ltof1 _ (@length N)).
  unfold ltof in IH. destruct s as [|c s].
  - cbn [sub_go]. destruct (match_here last_obj_re []) as [[n g]|] eqn:E;
      [|done].
    apply match_here_sound in E as (w & s' & E & Hw & _).
    apply lang_last_obj_re in Hw as (u & _ & ->).
    symmetry in E. apply app_eq_nil in E as [E _].
    apply app_eq_nil in E as [_ E]. done.
  - cbn [sub_go].
    destruct (match_here last_obj_re (c :: s)) as [[n g]|] eqn:E.
    + apply match_here_sound in E as (w & s' & E & Hw & ->).
      apply lang_last_obj_re in Hw as (u & Hu & ->).
      rewrite expand_brace_t, E.
      assert (exists k, length (u ++ lit "}{") = S k) as [k Hk].
      { rewrite length_app. simpl. exists (S (length u)). lia. }
      rewrite Hk.
      assert (sub_go last_obj_re brace_t k s
              = sub_go last_obj_re brace_t 0 s') as ->.
      { rewrite sub_go_skip.
        - f_equal. change (drop k s) with (drop (S k) (c :: s)).
          by rewrite E, <- Hk, drop_app_length.
        - apply (f_equal length) in E. rewrite length_app in E.
          cbn [length] in E. lia. }
      rewrite !count_app, IH.
      * apply count_0 in Hu. rewrite Hu. done.
      * rewrite E, length_app. lia.
    + simpl. rewrite IH; [done|]. simpl. lia.
Qed.

(** ** One step of a substitution *)

Lemma sub_step r t (s : str) :
  sub r t s
  = match match_here r s with
    | Some (S k, g) => expand t g ++ sub r t (drop (S k) s)
    | Some (O, g) =>
        expand t g ++
        match s with
        | [] => []
        | c :: s' => c :: sub r t s'
        end
    | None =>
        match s with
        | [] => []
        | c :: s' => c :: sub r t s'
        end
    end.
Proof.
  unfold sub. destruct s as [|c s]; cbn [sub_go].
  - destruct (match_here r []) as [[[|k] g]|] eqn:E; [done| |done].
    apply match_here_sound in E as (w & s' & E & _ & Hn).
    symmetry in E. apply app_eq_nil in E as [-> _]. done.
  - destruct (match_here r (c :: s)) as [[[|k] g]|] eqn:E; [done| |done].
    f_equal. cbn [drop]. apply sub_go_skip.
    apply match_here_sound in E as (w & s' & E & _ & Hn).
    apply (f_equal length) in E. rewrite length_app in E.
    cbn [length] in E. lia.
Qed.

(** ** The repair, line by line *)

Section LineFacts.
Context {A : Type}.

(** A greedy [.*] never looks behind the end of the line. *)
Lemma star_m_line (a b : str) (k k' : str -> option A) :
  nl ∉ a ->
  (forall t' t, a = t' ++ t -> k (t ++ nl :: b) = k' t) ->
  star_m true AnyButNewline (a ++ nl :: b) k
  = star_m true AnyButNewline a k'.
Proof.
  induction a as [|c a IH]; intros Ha Hk.
  - cbn [app star_m accepts]. rewrite N.eqb_refl. cbn [negb].
    by apply (Hk [] []).
  - apply not_elem_of_cons in Ha as [Hc Ha].
    cbn [app star_m accepts].
    destruct (N.eqb_spec c nl) as [->|_]; [done|]. cbn [negb].
    pose proof (Hk [] (c :: a) eq_refl) as H0. cbn [app] in H0.
    rewrite (IH Ha); [by rewrite H0|].
    intros t' t ->. by apply (Hk (c :: t') t).
Qed.
End LineFacts.

Lemma match_here_line (a b : str) :
  nl ∉ a ->
  match_here last_obj_re (a ++ nl :: b) = match_here last_obj_re a.
Proof.
  intros Ha. unfold match_here, last_obj_re. rewrite !m_seq. cbn [m].
  apply star_m_line; [done|]. intros t' t ->.
  change (lit "}{") with [125%N; 123%N].
  destruct t as [|c [|d t]]; cbn [app strip_prefix].
  - done.
  - destruct (125 =? c)%N; [|done]. done.
  - destruct (125 =? c)%N; [|done]. destruct (123 =? d)%N; [|done].
    do 2 f_equal. rewrite !length_app. cbn [length]. lia.
Qed.

Lemma match_here_last_obj_re_nil : match_here last_obj_re [] = None.
Proof. done. Qed.

Lemma repair_nil : repair [] = [].
Proof. done. Qed.

Lemma repair_line (a b : str) :
  nl ∉ a -> repair (a ++ nl :: b) = repair a ++ nl :: repair b.
Proof.
  unfold repair.
  induction a as [a IH] using (induction_ltof1 _ (@length N)).
  unfold ltof in IH. intros Ha.
  rewrite (sub_step _ _ (a ++ nl :: b)), (sub_step _ _ a), match_here_line
    by done.
  destruct (match_here last_obj_re a) as [[[|k] g]|] eqn:E.
  - apply match_here_sound in E as (w & s' & _ & Hw & Hn).
    apply lang_last_obj_re in Hw as (u & _ & ->).
    rewrite length_app in Hn. simpl in Hn. lia.
  - apply match_here_sound in E as (w & s' & -> & Hw & Hn).
    rewrite <- app_assoc, Hn, !drop_app_length, <- app_assoc.
    f_equal. apply IH.
    + rewrite length_app. lia.
    + apply not_elem_of_app in Ha as [_ Ha]. done.
  - destruct a as [|c a]; cbn [app].
    + done.
    + f_equal. apply not_elem_of_cons in Ha as [_ Ha].
      apply IH; [simpl; lia|done].
Qed.

(** The same for any first part: the repair of two parts of a text that a
    newline separates is the repair of each, with the newline between. *)
Lemma repair_line_any (a b : str) :
  repair (a ++ nl :: b) = repair a ++ nl :: repair b.
Proof.
  induction a as [a IH] using (induction_ltof1 _ (@length N)).
  unfold ltof in IH.
  destruct (decide (nl ∈ a)) as [Hin|Hout]; [|by apply repair_line].
  apply list_elem_of_split_l in Hin as (a1 & a2 & -> & Ha1).
  rewrite <- app_assoc. cbn [app].
  rewrite (repair_line a1 (a2 ++ nl :: b)), (repair_line a1 a2) by done.
  rewrite IH; [by rewrite <- app_assoc|].
  rewrite length_app. simpl. lia.
Qed.

(** C1 as stated fails.  In [{'a':<newline>1}{'b':2}] a line break comes
    before the boundary; [.] does not match it, so the match starts behind
    it and the text before the line break stays. *)
Lemma repair_line_break :
  repair (lit "{'a':" ++ [nl] ++ lit "1}{'b':2}")
  = lit "{'a':" ++ [nl] ++ lit "{'b':2}"
  /\ ~ (forall pre rest,
           ~ occurs (lit "}{") rest ->
           repair (pre ++ lit "}{" ++ rest) = lit "{" ++ rest).
Proof.
  split; [by vm_compute|].
  intros H.
  specialize (H (lit "{'a':" ++ [nl] ++ lit "1") (lit "'b':2}")).
  assert (~ occurs (lit "}{") (lit "'b':2}")) as Hrest.
  { intros Ho. apply contains_occurs in Ho. by vm_compute in Ho. }
  specialize (H Hrest). by vm_compute in H.
Qed.

(** C1, amended.  For a text [pre}{rest] whose last boundary is the one
    shown ([rest] holds no further [}{]), the repair yields exactly
    [{rest], the content from the second brace of the boundary on, if and
    only if no newline comes before the boundary.  When a newline does come
    before it, the repair works line by line: with [pre] a text [a], a
    newline, and a text [p] without newline, the result is the repair of
    [a], the newline, and [{rest]. *)
Theorem repair_keeps_last_object (pre rest : str) :
  ~ occurs (lit "}{") rest ->
  (repair (pre ++ lit "}{" ++ rest) = lit "{" ++ rest <-> nl ∉ pre)
  /\ (forall a p,
         pre = a ++ nl :: p -> nl ∉ p ->
         repair (pre ++ lit "}{" ++ rest)
         = repair a ++ nl :: lit "{" ++ rest).
Proof.
  intros Hrest. split; [split|].
  - intros E. apply (f_equal newlines) in E.
    rewrite repair_newlines, !count_app in E. apply count_0.
    change (newlines (lit "}{")) with 0 in E.
    change (newlines (lit "{")) with 0 in E. lia.
  - intros Hpre. by apply repair_last_object.
  - intros a p -> Hp. rewrite <- app_assoc. cbn [app].
    rewrite repair_line_any. by rewrite repair_last_object.
Qed.

(** C1 at a text of three objects on one line. *)
Lemma repair_keeps_last_object_witness :
  repair (lit "{'a':1}{'b':2}{'c':3}") = lit "{'c':3}".
Proof.
  refine (proj2 (proj1 (repair_keeps_last_object
                          (lit "{'a':1}{'b':2") (lit "'c':3}") _)) _).
  - intros Ho. apply contains_occurs in Ho. by vm_compute in Ho.
  - apply count_0. reflexivity.
Defined.

(** ** C7: the marker and the white space *)

Lemma find_Some (s w : str) p :
  find s w = Some p ->
  forall pre post, s = pre ++ w ++ post -> p <= length pre.
Proof.
  revert p. induction s as [|c s IH]; intros p; cbn [find].
  - destruct (startswith [] w) eqn:E; [|done].
    intros [= <-] pre post _. lia.
  - destruct (startswith (c :: s) w) eqn:E.
    { intros [= <-] pre post _. lia. }
    destruct (find s w) as [q|] eqn:Eq; [|done].
    intros [= <-] pre post Hs. destruct pre as [|d pre].
    + simpl in Hs. rewrite Hs in E.
      unfold startswith in E. by rewrite strip_prefix_app in E.
    + injection Hs as _ Hs. specialize (IH q eq_refl pre post Hs).
      simpl. lia.
Qed.

Lemma check_cuts_sound sep segs tail :
  check_cuts sep segs tail = true -> leftmost_cuts sep segs tail.
Proof.
  induction segs as [|seg l IH]; cbn [check_cuts leftmost_cuts].
  - intros H Ho. apply contains_occurs in Ho. by rewrite Ho in H.
  - rewrite andb_true_iff, bool_decide_eq_true. intros [Hf Hl].
    split; [|by apply IH]. intros pre' post' E.
    by apply (find_Some _ _ _ Hf pre' post').
Qed.

Lemma replace_go_skip old new n (s : str) :
  n <= length s ->
  replace_go old new n s = replace_go old new 0 (drop n s).
Proof.
  revert s. induction n as [|n IH]; intros s Hn; [done|].
  destruct s as [|c s]; simpl in Hn; [lia|].
  simpl. apply IH. lia.
Qed.

Lemma replace_go_free old new (s : str) :
  old <> [] -> ~ occurs old s -> replace_go old new 0 s = s.
Proof.
  intros Hold. induction s as [|c s IH]; intros H; [done|].
  cbn [replace_go].
  destruct (startswith (c :: s) old) eqn:E.
  - apply startswith_true in E as [s' E]. destruct H.
    exists [], s'. by rewrite E.
  - f_equal. apply IH. intros (pre & post & ->). apply H.
    by exists (c :: pre), post.
Qed.

Lemma replace_go_first old new (seg rest : str) :
  old <> [] ->
  (forall pre' post',
      seg ++ old ++ rest = pre' ++ old ++ post' ->
      length seg <= length pre') ->
  replace_go old new 0 (seg ++ old ++ rest)
  = seg ++ new ++ replace_go old new 0 rest.
Proof.
  intros Hold. induction seg as [|c seg IH]; intros Hleft.
  - cbn [app]. destruct old as [|d old]; [done|].
    cbn [app replace_go]. unfold startswith.
    change (d :: old ++ rest) with ((d :: old) ++ rest).
    rewrite strip_prefix_app. f_equal.
    replace (length (d :: old) - 1) with (length old) by (simpl; lia).
    rewrite replace_go_skip by (rewrite length_app; lia).
    by rewrite drop_app_length.
  - cbn [app replace_go].
    destruct (startswith (c :: seg ++ old ++ rest) old) eqn:E.
    + apply startswith_true in E as [s' E].
      specialize (Hleft [] s'). cbn [app length] in Hleft.
      specialize (Hleft E). lia.
    + f_equal. apply IH. intros pre' post' E'.
      specialize (Hleft (c :: pre') post'). cbn [app length] in Hleft.
      rewrite E' in Hleft. specialize (Hleft eq_refl). lia.
Qed.

(** Every separator the scan meets is replaced. *)
Lemma replace_joined old new segs tail :
  old <> [] -> leftmost_cuts old segs tail ->
  replace old new (joined old segs tail) = joined new segs tail.
Proof.
  intros Hold. unfold replace. destruct old as [|d old]; [done|].
  induction segs as [|seg l IH]; cbn [leftmost_cuts joined].
  - by apply replace_go_free.
  - intros [Hleft Hl]. rewrite replace_go_first by done.
    by rewrite (IH Hl).
Qed.

Lemma joined_nil segs tail : joined [] segs tail = concat segs ++ tail.
Proof.
  induction segs as [|seg l IH]; [done|].
  cbn [joined concat app]. by rewrite IH, app_assoc.
Qed.

Lemma find_None (s w : str) : find s w = None -> ~ occurs w s.
Proof.
  induction s as [|c s IH]; cbn [find].
  - destruct (startswith [] w) eqn:E; [done|]. intros _ (pre & post & Hs).
    symmetry in Hs. apply app_eq_nil in Hs as [-> Hs].
    apply app_eq_nil in Hs as [-> ->]. done.
  - destruct (startswith (c :: s) w) eqn:E; [done|].
    destruct (find s w) as [q|] eqn:Eq; [done|].
    intros _ (pre & post & Hs). destruct pre as [|d pre].
    + cbn [app] in Hs. rewrite Hs in E. unfold startswith in E.
      by rewrite strip_prefix_app in E.
    + injection Hs as _ Hs. apply (IH eq_refl). by exists pre, post.
Qed.

Lemma find_Some_split (s w : str) p :
  find s w = Some p ->
  exists post, s = take p s ++ w ++ post /\ p <= length s.
Proof.
  revert p. induction s as [|c s IH]; intros p; cbn [find].
  - destruct (startswith [] w) eqn:E; [|done]. intros [= <-].
    apply startswith_true in E as [post E]. by exists post.
  - destruct (startswith (c :: s) w) eqn:E.
    { intros [= <-]. apply startswith_true in E as [post E].
      exists post. split; [done|]. lia. }
    destruct (find s w) as [q|] eqn:Eq; [|done].
    intros [= <-]. destruct (IH q eq_refl) as (post & Hs & Hq).
    exists post. cbn [take app length]. split; [by rewrite <- Hs|lia].
Qed.

(** Every text has the cut that the scan makes. *)
Lemma cuts_exist sep (s : str) :
  sep <> [] ->
  exists segs tail, s = joined sep segs tail /\ leftmost_cuts sep segs tail.
Proof.
  intros Hsep. induction s as [s IH] using (induction_ltof1 _ (@length N)).
  unfold ltof in IH.
  destruct (find s sep) as [p|] eqn:Ef.
  - destruct (find_Some_split _ _ _ Ef) as (post & E & Hp).
    destruct (IH post) as (segs & tail & -> & Hl).
    { apply (f_equal length) in E. rewrite !length_app in E.
      destruct sep; [done|]. simpl in E. lia. }
    exists (take p s :: segs), tail. cbn [joined leftmost_cuts].
    split; [done|]. split; [|done].
    intros pre' post' E'. rewrite <- E in E'.
    rewrite length_take_le by done. by apply (find_Some _ _ _ Ef pre' post').
  - exists [], s. split; [done|]. by apply find_None.
Qed.

(** None of the patterns of the file matches the empty text, so the case of
    an empty match in [sub_go] never comes up for them. *)
Lemma patterns_not_empty r :
  r ∈ [last_obj_re; flip_rend_style_re; flip_xmlns_re; flip_div_attrs_re;
       flip_moo_re] ->
  ~ lang r [].
Proof.
  intros Hr Hl.
  assert (forall a b, ~ lang (flip2_re a b) []) as H2.
  { intros a b (X & Y & _ & _ & E)%lang_flip2_re.
    apply (f_equal length) in E.
    destruct (pair_text_length a b X Y) as [k Hk]. by rewrite Hk in E. }
  repeat (apply elem_of_cons in Hr as [->|Hr]); try by eapply H2.
  - apply lang_last_obj_re in Hl as (w & _ & E).
    symmetry in E. by apply app_eq_nil in E as [_ E].
  - apply lang_flip_div_attrs_re in Hl as (A & B & C & D & _ & _ & _ & _ & E).
    apply (f_equal quotes) in E. unfold div_text, attr in E.
    rewrite !count_app in E. simpl in E. lia.
  - by apply elem_of_nil in Hr.
Qed.

(** *** [strip] *)

Lemma lstrip_spec (s : str) :
  exists l, s = l ++ lstrip s /\ all_space l
            /\ forall c t, lstrip s = c :: t -> isspace c = false.
Proof.
  induction s as [|c s (l & E & Hl & Hh)]; cbn [lstrip].
  - exists []. split; [done|]. split; [constructor|done].
  - destruct (isspace c) eqn:Ec.
    + exists (c :: l). split; [by rewrite E at 1|].
      split; [by constructor|done].
    + exists []. split; [done|]. split; [constructor|].
      by intros ? ? [= <- _].
Qed.

Lemma strip_spec (s : str) :
  exists l r, s = l ++ strip s ++ r /\ all_space l /\ all_space r
              /\ (forall c t, strip s = c :: t -> isspace c = false)
              /\ (forall t c, strip s = t ++ [c] -> isspace c = false).
Proof.
  unfold strip, rstrip.
  destruct (lstrip_spec s) as (l & E & Hl & Hh).
  destruct (lstrip_spec (rev (lstrip s))) as (r & E' & Hr & Hh').
  apply (f_equal (@rev _)) in E'. rewrite rev_involutive, rev_app_distr in E'.
  exists l, (rev r). split; [by rewrite <- E'|].
  split; [done|]. split; [by apply Forall_rev|]. split.
  - intros c t Ht. rewrite Ht in E'. apply (Hh c (t ++ rev r)).
    by rewrite E'.
  - intros t c Ht. apply (f_equal (@rev _)) in Ht.
    rewrite rev_involutive, rev_app_distr in Ht. by apply (Hh' c (rev t)).
Qed.

(** ** The comparison *)

Section VerifierFacts.
Context {other : Type} (other_eq : other -> other -> bool).
Implicit Types (d a e : gmap str (@value other)) (u : util).

Lemma flip_str r t a s :
  a !! k_data = Some (VStr s) ->
  flip r t a = Ok (<[k_data := VStr (sub r t s)]> a).
Proof. intros H. unfold flip. by rewrite H. Qed.

Lemma flip3 r1 t1 r2 t2 r3 t3 a s :
  a !! k_data = Some (VStr s) ->
  obind (flip r1 t1 a) (fun a =>
  obind (flip r2 t2 a) (fun a => flip r3 t3 a))
  = Ok (<[k_data := VStr (sub r3 t3 (sub r2 t2 (sub r1 t1 s)))]> a).
Proof.
  intros H. rewrite (flip_str _ _ _ _ H). cbn [obind].
  rewrite (flip_str _ _ _ (sub r1 t1 s)) by apply lookup_insert_eq.
  cbn [obind].
  rewrite (flip_str _ _ _ (sub r2 t2 (sub r1 t1 s)))
    by apply lookup_insert_eq.
  by rewrite !insert_insert_eq.
Qed.

(** [compare] in closed form. *)
Lemma compare_Dict u e d v :
  d !! k_version = Some v ->
  compare other_eq u e (Dict d)
  = if data_not_str u (delete k_version d) then Raise TypeError
    else Ok (MkResult (dict_eq other_eq (normalized u (delete k_version d)) e)
               (normalized u (delete k_version d), e)).
Proof.
  intros Hv. unfold compare, data_not_str, normalized, normalize.
  rewrite Hv. set (a := delete k_version d).
  destruct (a !! k_data) as [[s|o]|] eqn:Hd.
  - rewrite bool_decide_eq_true_2 by done.
    destruct (ie u); [by rewrite (flip3 _ _ _ _ _ _ _ s)|].
    destruct (edge u); [by rewrite (flip3 _ _ _ _ _ _ _ s)|].
    cbn [obind]. by rewrite insert_id.
  - rewrite bool_decide_eq_true_2 by done.
    unfold flip. rewrite Hd. by destruct (ie u), (edge u).
  - rewrite bool_decide_eq_false_2; [done|]. by intros [? ?].
Qed.

Lemma normalized_ne u a k : k <> k_data -> normalized u a !! k = a !! k.
Proof.
  intros Hk. unfold normalized.
  destruct (a !! k_data) as [[s|o]|]; [|done..].
  by rewrite lookup_insert_ne.
Qed.

Lemma normalized_default u a :
  ie u = false -> edge u = false -> normalized u a = a.
Proof.
  intros Hi He. unfold normalized, normalize. rewrite Hi, He.
  destruct (a !! k_data) as [[s|o]|] eqn:Hd; [|done..].
  by apply insert_id.
Qed.

(** Against a dict of strings, [==] is equality. *)
Lemma dict_eq_expected a data :
  dict_eq other_eq a (expected_of data) = true <-> a = expected_of data.
Proof.
  unfold dict_eq. rewrite bool_decide_eq_true. unfold map_relation.
  assert (forall i (y : @value other),
             expected_of data !! i = Some y -> exists s, y = VStr s)
    as Hstr.
  { intros i y. unfold expected_of.
    destruct (decide (i = k_command)) as [->|];
      [rewrite lookup_insert_eq; intros [= <-]; by eexists|].
    rewrite lookup_insert_ne by done.
    destruct (decide (i = k_data)) as [->|];
      [rewrite lookup_insert_eq; intros [= <-]; by eexists|].
    by rewrite lookup_insert_ne, lookup_empty. }
  split.
  - intros H. apply map_eq. intros i. specialize (H i).
    destruct (a !! i) as [x|], (expected_of data !! i) as [y|] eqn:Ey;
      cbn in H; try done.
    destruct (Hstr _ _ Ey) as [s ->]. destruct x as [s'|o]; [|done].
    cbn in H. by apply bool_decide_eq_true in H as ->.
  - intros -> i.
    destruct (expected_of data !! i) as [y|] eqn:Ey; cbn; [|done].
    destruct (Hstr _ _ Ey) as [s ->]. cbn. by apply bool_decide_eq_true.
Qed.
End VerifierFacts.

(** The table has two entries. *)
Lemma scenario_names (name : str) :
  _SCENARIO_TO_EXPECTED_DATA !! name = None <->
  name <> lit "serializes namespaces properly"
  /\ name <> lit "serializes multiple top namespaces properly".
Proof.
  unfold _SCENARIO_TO_EXPECTED_DATA. split.
  - intros H. split; intros ->; by vm_compute in H.
  - intros [H1 H2]. by rewrite !lookup_insert_ne, lookup_empty.
Qed.

Section VerifierClaims.
Context {other : Type} (other_eq : other -> other -> bool).
Implicit Types (d a e : gmap str (@value other)) (u : util).
Implicit Types (json_loads : str -> @outcome other (@loaded other)).
Implicit Types (wait : @M other (@Result other) -> @M other (@Result other)).

(** C7, amended.  Before the repair and before the decoding, every marker
    that a scan from left to right meets in the fetched text is deleted (a
    marker that starts inside a deleted one, or that the deletion itself
    puts together, is not), and then the white space at both ends is
    trimmed.  Every text has such a cut at its markers, and the repair and
    the decoder get the segments of the cut, concatenated and trimmed. *)
Theorem marker_removed_then_trimmed json_loads (srv : server) u e n :
  cond other_eq json_loads srv u e n
  = (obind (json_loads (repair (preprocess (srv n))))
       (compare other_eq u e), S n)
  /\ (exists segs tail,
         srv n = joined marker segs tail /\ leftmost_cuts marker segs tail)
  /\ (forall segs tail,
         srv n = joined marker segs tail ->
         leftmost_cuts marker segs tail ->
         preprocess (srv n) = strip (concat segs ++ tail))
  /\ (exists l r,
         replace marker [] (srv n) = l ++ preprocess (srv n) ++ r
         /\ all_space l /\ all_space r)
  /\ (forall c t, preprocess (srv n) = c :: t -> isspace c = false)
  /\ (forall t c, preprocess (srv n) = t ++ [c] -> isspace c = false).
Proof.
  split.
  { unfold cond, bind, get, lift.
    by destruct (json_loads _) as [[d|]|]. }
  split; [by apply cuts_exist|]. split.
  { intros segs tail Hsrv Hcuts. unfold preprocess.
    rewrite Hsrv, replace_joined by done. by rewrite joined_nil. }
  unfold preprocess.
  destruct (strip_spec (replace marker [] (srv n)))
    as (l & r & E & Hl & Hr & Hh & Ht).
  split; [by exists l, r|]. by split.
Qed.

(** C2.  Two decoded payloads that both have a [version] and agree on
    every other key get the same outcome from the comparison, verdict and
    payload alike, for every browser identity and every expected dict; so
    two runs of the condition whose fetched texts decode to such payloads
    end alike. *)
Theorem version_ignored json_loads (srv1 srv2 : server) u e n d1 d2 v1 v2 :
  json_loads (repair (preprocess (srv1 n))) = Ok (Dict d1) ->
  json_loads (repair (preprocess (srv2 n))) = Ok (Dict d2) ->
  d1 !! k_version = Some v1 ->
  d2 !! k_version = Some v2 ->
  (forall k, k <> k_version -> d1 !! k = d2 !! k) ->
  compare other_eq u e (Dict d1) = compare other_eq u e (Dict d2)
  /\ cond other_eq json_loads srv1 u e n = cond other_eq json_loads srv2 u e n.
Proof.
  intros Hj1 Hj2 H1 H2 Hk.
  assert (compare other_eq u e (Dict d1) = compare other_eq u e (Dict d2))
    as Hc.
  { rewrite (compare_Dict _ _ _ _ _ H1), (compare_Dict _ _ _ _ _ H2).
    replace (delete k_version d2) with (delete k_version d1); [done|].
    apply map_eq. intros k. destruct (decide (k = k_version)) as [->|Hne].
    - by rewrite !lookup_delete_eq.
    - rewrite !lookup_delete_ne by done. by apply Hk. }
  split; [done|]. unfold cond, bind, get, lift. by rewrite Hj1, Hj2, Hc.
Qed.

(** C5.  For a scenario name that the expected-data table does not hold,
    the step raises the lookup error of line 83 at once: whatever the
    decoder, the polling evaluator and the server are, the count of
    fetches made stays as it was. *)
Theorem unknown_scenario_fails_fast json_loads wait (srv : server) u
    (scenario_name : str) (n : nat) :
  _SCENARIO_TO_EXPECTED_DATA !! scenario_name = None ->
  step_impl other_eq json_loads wait srv u scenario_name n
  = (Raise (KeyError scenario_name), n).
Proof. intros H. unfold step_impl. by rewrite H. Qed.

(** C8.  For a decoded payload with a [version], the condition succeeds
    exactly when the payload, once [version] is deleted and [data]
    normalized, is the dict of the two fields [command: 'save'] and
    [data: expected].  So a payload with one more field, or without
    [command] or without [data], never succeeds. *)
Theorem verdict_exact u (data : str) d v :
  d !! k_version = Some v ->
  (succeeds (compare other_eq u (expected_of data) (Dict d)) = true
   <-> normalized u (delete k_version d) = expected_of data)
  /\ (forall k, k <> k_command -> k <> k_version -> k <> k_data ->
                is_Some (d !! k) ->
                succeeds (compare other_eq u (expected_of data) (Dict d))
                = false)
  /\ (d !! k_command = None \/ d !! k_data = None ->
      succeeds (compare other_eq u (expected_of data) (Dict d)) = false).
Proof.
  intros Hv.
  assert (succeeds (compare other_eq u (expected_of data) (Dict d)) = true
          <-> normalized u (delete k_version d) = expected_of data) as Hiff.
  { rewrite (compare_Dict _ _ _ _ _ Hv).
    destruct (data_not_str u (delete k_version d)) eqn:Hn.
    - split; [done|]. intros E. unfold data_not_str in Hn.
      apply (f_equal (fun m => m !! k_data)) in E. cbn beta in E.
      unfold normalized in E.
      destruct (delete k_version d !! k_data) as [[s|o]|] eqn:Hd; [done| |done].
      rewrite Hd in E. by vm_compute in E.
    - cbn [succeeds result]. apply dict_eq_expected. }
  split; [done|]. split.
  - intros k Hc Hver Hd Hk. apply not_true_is_false. intros Hs.
    apply Hiff in Hs. apply (f_equal (fun m => m !! k)) in Hs.
    cbn beta in Hs. rewrite normalized_ne, lookup_delete_ne in Hs by done.
    unfold expected_of in Hs.
    rewrite !lookup_insert_ne, lookup_empty in Hs by done.
    destruct Hk as [x Hx]. congruence.
  - intros Hmiss. apply not_true_is_false. intros Hs. apply Hiff in Hs.
    destruct Hmiss as [Hc|Hd].
    + apply (f_equal (fun m => m !! k_command)) in Hs. cbn beta in Hs.
      rewrite normalized_ne, lookup_delete_ne, Hc in Hs by done.
      by vm_compute in Hs.
    + apply (f_equal (fun m => m !! k_data)) in Hs. cbn beta in Hs.
      unfold normalized in Hs.
      rewrite lookup_delete_ne, Hd in Hs by done.
      rewrite lookup_delete_ne, Hd in Hs by done.
      by vm_compute in Hs.
Qed.

(** C9.  For a decoded payload without a [version], line 93 raises the
    key-lookup error: the condition returns no result, neither a match nor
    a mismatch, for every browser identity and every expected dict. *)
Theorem missing_version_raises json_loads (srv : server) u e n d :
  json_loads (repair (preprocess (srv n))) = Ok (Dict d) ->
  d !! k_version = None ->
  compare other_eq u e (Dict d) = Raise (KeyError k_version)
  /\ cond other_eq json_loads srv u e n = (Raise (KeyError k_version), S n).
Proof.
  intros Hj Hv.
  assert (compare other_eq u e (Dict d) = Raise (KeyError k_version)) as Hc.
  { unfold compare. by rewrite Hv. }
  split; [done|]. unfold cond, bind, get, lift. by rewrite Hj, Hc.
Qed.

(** C10.  For a decoded payload with a [version], the comparison either
    raises [TypeError] (a [data] that is not a string, under the legacy IE
    or Edge identity) or returns the verdict of [==] between the expected
    dict and a payload that has no [version] and, at every key but [data],
    the value as it was decoded; under the default identity [data] too is
    as decoded. *)
Theorem normalization_frame u e d v :
  d !! k_version = Some v ->
  exists a,
    compare other_eq u e (Dict d)
    = (if data_not_str u (delete k_version d) then Raise TypeError
       else Ok (MkResult (dict_eq other_eq a e) (a, e)))
    /\ a !! k_version = None
    /\ (forall k, k <> k_data -> k <> k_version -> a !! k = d !! k)
    /\ (ie u = false -> edge u = false ->
        data_not_str u (delete k_version d) = false
        /\ a = delete k_version d).
Proof.
  intros Hv. exists (normalized u (delete k_version d)).
  split; [by apply compare_Dict with v|]. split.
  - by rewrite normalized_ne, lookup_delete_eq.
  - split.
    + intros k Hd Hk. by rewrite normalized_ne, lookup_delete_ne.
    + intros Hi He. split; [|by apply normalized_default].
      unfold data_not_str. rewrite Hi, He.
      by destruct (delete k_version d !! k_data) as [[?|?]|].
Qed.
End VerifierClaims.

(** ** Concrete runs *)

(** C7 as stated fails.  Deleting the marker of
    [a<newline>**<newline>***<newline>*<newline>b] puts a new marker
    together, which stays in the text handed to the repair.  Of the two
    markers of [x<newline>***<newline>***<newline>y], which share a newline,
    only the first is deleted. *)
Lemma marker_survives :
  ~ (forall text, ~ occurs marker (preprocess text))
  /\ preprocess (lit "x" ++ marker ++ lit "***" ++ [nl] ++ lit "y")
     = lit "x***" ++ [nl] ++ lit "y".
Proof.
  split; [|by vm_compute].
  intros H.
  apply (H (lit "a" ++ [nl] ++ lit "**" ++ marker ++ lit "*" ++ [nl] ++ lit "b")).
  apply contains_occurs. by vm_compute.
Qed.

(** C7 at the artifact of one save. *)
Lemma marker_removed_then_trimmed_witness :
  preprocess (lit "{'command':'save','version':'2','data':'x'}" ++ marker)
  = lit "{'command':'save','version':'2','data':'x'}".
Proof.
  refine (proj1 (proj2 (proj2
            (marker_removed_then_trimmed demo_eq
               (fun _ => Raise JSONDecodeError)
               (fun _ => lit "{'command':'save','version':'2','data':'x'}"
                         ++ marker)
               default_browser ∅ 0)))
            [lit "{'command':'save','version':'2','data':'x'}"] []
            eq_refl _).
  apply check_cuts_sound. by vm_compute.
Defined.

(** C2 at two payloads with the versions 1 and 2, for a decoder that knows
    their two texts. *)
Lemma version_ignored_witness :
  compare demo_eq legacy_ie (expected_of (lit "X"))
    (Dict (demo_payload (lit "1") (lit "X")))
  = compare demo_eq legacy_ie (expected_of (lit "X"))
      (Dict (demo_payload (lit "2") (lit "X"))).
Proof.
  refine (proj1
    (version_ignored demo_eq
       (fun t =>
          if bool_decide (t = lit "{'command':'save','version':'1','data':'X'}")
          then Ok (Dict (demo_payload (lit "1") (lit "X")))
          else Ok (Dict (demo_payload (lit "2") (lit "X"))))
       (fun _ => lit "{'command':'save','version':'1','data':'X'}")
       (fun _ => lit "{'command':'save','version':'2','data':'X'}")
       legacy_ie (expected_of (lit "X")) 0
       (demo_payload (lit "1") (lit "X")) (demo_payload (lit "2") (lit "X"))
       (VStr (lit "1")) (VStr (lit "2")) eq_refl eq_refl eq_refl eq_refl _)).
  intros k Hk. unfold demo_payload. by rewrite !lookup_insert_ne.
Defined.

(** C5 at a name that is not in the table, with the polling evaluator of the
    specification. *)
Lemma unknown_scenario_fails_fast_witness :
  step_impl demo_eq (fun _ => Raise JSONDecodeError) (poll true 3 None)
    (fun _ => []) default_browser (lit "serializes nothing") 0
  = (Raise (KeyError (lit "serializes nothing")), 0).
Proof.
  apply (unknown_scenario_fails_fast demo_eq). reflexivity.
Defined.

(** C8 at a payload that the legacy Edge identity serialised. *)
Lemma verdict_exact_witness :
  succeeds (compare demo_eq legacy_edge (expected_of (lit "<p MOO='a' moo='b'/>"))
              (Dict (demo_payload (lit "1") (lit "<p moo='b' MOO='a'/>"))))
  = true.
Proof.
  apply (proj1 (verdict_exact demo_eq legacy_edge (lit "<p MOO='a' moo='b'/>")
                  (demo_payload (lit "1") (lit "<p moo='b' MOO='a'/>"))
                  (VStr (lit "1")) eq_refl)).
  by vm_compute.
Defined.

(** C9 at a payload of the two fields [command] and [data]. *)
Lemma missing_version_raises_witness :
  cond demo_eq (fun _ => Ok (Dict (expected_of (lit "X"))))
    (fun _ => lit "{'command':'save','data':'X'}")
    default_browser (expected_of (lit "X")) 0
  = (Raise (KeyError k_version), 1).
Proof.
  apply (missing_version_raises demo_eq
           (fun _ => Ok (Dict (expected_of (lit "X"))))
           (fun _ => lit "{'command':'save','data':'X'}")
           default_browser (expected_of (lit "X")) 0
           (expected_of (lit "X"))).
  - reflexivity.
  - reflexivity.
Defined.

(** C10 at a payload with the version 1, for the legacy IE identity. *)
Lemma normalization_frame_witness :
  exists a,
    compare demo_eq legacy_ie (expected_of (lit "X"))
      (Dict (demo_payload (lit "1") (lit "X")))
    = Ok (MkResult (dict_eq demo_eq a (expected_of (lit "X")))
            (a, expected_of (lit "X")))
    /\ a !! k_version = None
    /\ a !! k_command = Some (VStr (lit "save")).
Proof.
  destruct (normalization_frame demo_eq legacy_ie (expected_of (lit "X"))
              (demo_payload (lit "1") (lit "X")) (VStr (lit "1")) eq_refl)
    as (a & Hc & Hv & Hk & _).
  exists a. split; [exact Hc|]. split; [exact Hv|].
  rewrite Hk; [reflexivity|done|done].
Defined.

(** * Further properties of the step *)

(** ** No boundary is left behind *)

Lemma repair_free (s : str) : ~ occurs (lit "}{") (repair s).
Proof.
  unfold repair.
  induction s as [s IH] using (induction_ltof1 _ (@length N)).
  unfold ltof in IH. rewrite sub_step.
  destruct (match_here last_obj_re s) as [[[|k] g]|] eqn:E.
  - apply match_here_sound in E as (w & s' & _ & Hw & Hn).
    apply lang_last_obj_re in Hw as (u & _ & ->).
    rewrite length_app in Hn. simpl in Hn. lia.
  - apply match_here_sound in E as (w & s' & -> & Hw & Hn).
    rewrite Hn, drop_app_length, expand_brace_t.
    intros (pre & post & Ho). destruct pre as [|c pre].
    + by vm_compute in Ho.
    + injection Ho as _ Ho. apply (IH s').
      * rewrite length_app. lia.
      * by exists pre, post.
  - destruct s as [|c s]; intros (pre & post & Ho).
    + symmetry in Ho. apply app_eq_nil in Ho as [_ Ho]. done.
    + destruct pre as [|d pre].
      * change (lit "}{") with [125%N; 123%N] in Ho.
        injection Ho as -> Ho.
        assert (is_Some (match_here last_obj_re (125%N :: s))) as [x Hx];
          [|congruence].
        rewrite sub_step in Ho.
        destruct (match_here last_obj_re s) as [[[|k] g]|] eqn:E'.
        -- apply match_here_sound in E' as (w & s' & _ & Hw & Hn).
           apply lang_last_obj_re in Hw as (u & _ & ->).
           rewrite length_app in Hn. simpl in Hn. lia.
        -- apply match_here_sound in E' as (w & s' & -> & Hw & Hn).
           apply lang_last_obj_re in Hw as (u & Hu & ->).
           change (125%N :: (u ++ lit "}{") ++ s')
             with (((125%N :: u) ++ lit "}{") ++ s').
           apply match_here_complete, lang_last_obj_re.
           exists (125%N :: u). split; [|done].
           apply not_elem_of_cons. split; [done|done].
        -- destruct s as [|d s]; [done|]. injection Ho as -> _.
           change (125%N :: 123%N :: s) with (lit "}{" ++ s).
           apply match_here_complete, lang_last_obj_re.
           exists []. split; [apply not_elem_of_nil|done].
      * injection Ho as _ Ho. apply (IH s); [simpl; lia|].
        by exists pre, post.
Qed.

(** ** The rule for [type], [rend], [rendition] and [subtype] *)

Lemma div_text_length A B C D : exists n, length (div_text A B C D) = S n.
Proof.
  unfold div_text. rewrite !length_app. simpl. eexists. by rewrite Nat.add_succ_r.
Qed.

Lemma match_here_div (A B C D post : str) :
  quote_free A -> quote_free B -> quote_free C -> quote_free D ->
  match_here flip_div_attrs_re (div_text A B C D ++ post)
  = Some (length (div_text A B C D),
          [(4, attr "subtype" D); (3, attr "rendition" C);
           (2, attr "rend" B); (1, attr "type" A)]).
Proof.
  intros HA HB HC HD. unfold match_here, flip_div_attrs_re.
  unfold div_text at 1. rewrite <- !app_assoc.
  rewrite m_seq, m_group_attr_re, m_seq, m_lit by done.
  rewrite m_seq, m_group_attr_re, m_seq, m_lit by done.
  rewrite m_seq, m_group_attr_re, m_seq, m_lit by done.
  rewrite m_group_attr_re by done.
  do 2 f_equal. rewrite !length_app. lia.
Qed.

Lemma expand_div_t (a b c d : str) :
  expand div_t [(4, d); (3, c); (2, b); (1, a)]
  = a ++ lit " " ++ d ++ lit " " ++ b ++ lit " " ++ c.
Proof. simpl. by rewrite app_nil_r. Qed.

(** What a match of a flip pattern is and what it captures. *)
Lemma match_here_flip2_inv a b (s : str) n g :
  match_here (flip2_re a b) s = Some (n, g) ->
  exists X Y s',
    quote_free X /\ quote_free Y /\ s = pair_text a b X Y ++ s'
    /\ n = length (pair_text a b X Y)
    /\ g = [(2, attr b Y); (1, attr a X)].
Proof.
  intros H. pose proof H as H'.
  apply match_here_sound in H' as (w & s' & -> & Hw & _).
  apply lang_flip2_re in Hw as (X & Y & HX & HY & ->).
  rewrite match_here_flip2 in H by done. injection H as <- <-.
  by exists X, Y, s'.
Qed.

Lemma match_here_div_inv (s : str) n g :
  match_here flip_div_attrs_re s = Some (n, g) ->
  exists A B C D s',
    quote_free A /\ quote_free B /\ quote_free C /\ quote_free D
    /\ s = div_text A B C D ++ s'
    /\ n = length (div_text A B C D)
    /\ g = [(4, attr "subtype" D); (3, attr "rendition" C);
            (2, attr "rend" B); (1, attr "type" A)].
Proof.
  intros H. pose proof H as H'.
  apply match_here_sound in H' as (w & s' & -> & Hw & _).
  apply lang_flip_div_attrs_re in Hw as (A & B & C & D & HA & HB & HC & HD & ->).
  rewrite match_here_div in H by done. injection H as <- <-.
  by exists A, B, C, D, s'.
Qed.

(** The first group of the text is put in order, and the scan goes on
    behind it. *)
Lemma sub_div_first (pre A B C D post : str) :
  quote_free A -> quote_free B -> quote_free C -> quote_free D ->
  (forall pre' w post',
      is_div w ->
      pre ++ div_text A B C D ++ post = pre' ++ w ++ post' ->
      length pre <= length pre') ->
  sub flip_div_attrs_re div_t (pre ++ div_text A B C D ++ post)
  = pre ++ div_canon A B C D ++ sub flip_div_attrs_re div_t post.
Proof.
  intros HA HB HC HD Hleft.
  destruct (div_text_length A B C D) as [n Hn].
  rewrite (sub_first _ _ pre _ n
             [(4, attr "subtype" D); (3, attr "rendition" C);
              (2, attr "rend" B); (1, attr "type" A)]).
  - rewrite expand_div_t, <- Hn, drop_app_length.
    unfold div_canon. by rewrite <- !app_assoc.
  - intros p Hp.
    destruct (match_here _ _) as [[k g]|] eqn:E; [|done]. exfalso.
    destruct (match_here_sound _ _ _ _ E) as (w & s' & Hs & Hw & _).
    apply lang_flip_div_attrs_re in Hw.
    assert (length pre <= length (take p (pre ++ div_text A B C D ++ post)))
      as Hle.
    { apply (Hleft _ w s' Hw). by rewrite <- Hs, take_drop. }
    rewrite length_take in Hle. lia.
  - rewrite <- Hn. by apply match_here_div.
Qed.

Lemma sub_div_groups l tail :
  leftmost_divs l tail ->
  sub flip_div_attrs_re div_t (with_divs div_text l tail)
  = with_divs div_canon l tail.
Proof.
  induction l as [|[[[[pre A] B] C] D] l IH]; cbn [leftmost_divs with_divs].
  - intros H. apply sub_free. by apply free_flip_div_attrs_re.
  - intros (HA & HB & HC & HD & Hleft & Hl).
    rewrite sub_div_first by done. by rewrite (IH Hl).
Qed.

Lemma check_divs_sound l tail :
  check_divs l tail = true -> leftmost_divs l tail.
Proof.
  induction l as [|[[[[pre A] B] C] D] l IH]; cbn [check_divs leftmost_divs].
  - intros H. by apply free_flip_div_attrs_re, no_match_free.
  - rewrite !andb_true_iff, !bool_decide_eq_true.
    intros [[[[[HA HB] HC] HD] Hs] Hl]. repeat (split; [done|]).
    split; [|by apply IH].
    intros pre' w post' Hw E. unfold starts_at in Hs.
    destruct (search _ _) as [[[p n] g]|] eqn:Es; [|done].
    apply Nat.eqb_eq in Hs as <-.
    eapply search_leftmost; [exact Es| |exact E].
    by apply lang_flip_div_attrs_re.
Qed.

Lemma divs_cut_exists (s : str) :
  exists l tail, s = with_divs div_text l tail /\ leftmost_divs l tail.
Proof.
  induction s as [s IH] using (induction_ltof1 _ (@length N)).
  unfold ltof in IH.
  destruct (search flip_div_attrs_re s) as [[[p n] g]|] eqn:Es.
  - destruct (search_Some_match _ _ _ _ _ Es) as [Hp Hm].
    apply match_here_sound in Hm as (w & s' & Hs & Hw & _).
    pose proof Hw as Hw'.
    apply lang_flip_div_attrs_re in Hw'
      as (A & B & C & D & HA & HB & HC & HD & ->).
    destruct (div_text_length A B C D) as [k Hk].
    assert (s = take p s ++ div_text A B C D ++ s') as E.
    { by rewrite <- Hs, take_drop. }
    destruct (IH s') as (l & tail & -> & Hl).
    { apply (f_equal length) in E. rewrite !length_app in E. lia. }
    exists ((take p s, A, B, C, D) :: l), tail.
    cbn [with_divs leftmost_divs].
    split; [done|]. repeat (split; [done|]). split; [|done].
    intros pre' w post' Hw'' E'. rewrite <- E in E'.
    rewrite length_take_le by done.
    eapply search_leftmost; [exact Es| |exact E'].
    by apply lang_flip_div_attrs_re.
  - exists [], s. split; [done|]. cbn [leftmost_divs].
    by apply free_flip_div_attrs_re, search_free.
Qed.

(** ** The substitutions only move text *)

Lemma sub_Permutation r t :
  (forall s n g, match_here r s = Some (n, g) ->
                 n <> 0 /\ expand t g ≡ₚ take n s) ->
  forall s, sub r t s ≡ₚ s.
Proof.
  intros Hm s.
  induction s as [s IH] using (induction_ltof1 _ (@length N)).
  unfold ltof in IH. rewrite sub_step.
  destruct (match_here r s) as [[[|k] g]|] eqn:E.
  - by destruct (Hm _ _ _ E).
  - destruct (Hm _ _ _ E) as [_ Hp].
    apply match_here_sound in E as (w & s' & Hs & _ & Hn).
    rewrite <- (take_drop (S k) s) at 2.
    apply Permutation_app; [done|]. apply IH.
    rewrite length_drop. apply (f_equal length) in Hs.
    rewrite length_app in Hs. lia.
  - destruct s as [|c s]; [done|]. constructor. apply IH. simpl. lia.
Qed.

Lemma sub_flip2_Permutation a b (s : str) :
  sub (flip2_re a b) swap_t s ≡ₚ s.
Proof.
  apply sub_Permutation. clear s. intros s n g H.
  apply match_here_flip2_inv in H as (X & Y & s' & _ & _ & -> & -> & ->).
  destruct (pair_text_length a b X Y) as [k Hk].
  split; [lia|]. rewrite take_app_length, expand_swap_t. unfold pair_text.
  rewrite (app_assoc (attr b Y)).
  rewrite (Permutation_app_comm (attr b Y ++ lit " ")).
  apply Permutation_app; [done|]. apply Permutation_app_comm.
Qed.

Lemma sub_div_Permutation (s : str) :
  sub flip_div_attrs_re div_t s ≡ₚ s.
Proof.
  apply sub_Permutation. clear s. intros s n g H.
  apply match_here_div_inv in H
    as (A & B & C & D & s' & _ & _ & _ & _ & -> & -> & ->).
  destruct (div_text_length A B C D) as [k Hk].
  split; [lia|]. rewrite take_app_length, expand_div_t. unfold div_text.
  apply Permutation_app; [done|]. apply Permutation_app; [done|].
  rewrite (app_assoc (attr "subtype" D)).
  rewrite (Permutation_app_comm (attr "subtype" D ++ lit " ")).
  rewrite <- !app_assoc. do 3 (apply Permutation_app; [done|]).
  apply Permutation_app_comm.
Qed.

Lemma normalize_Permutation (u : util) (s : str) : normalize u s ≡ₚ s.
Proof.
  unfold normalize.
  change flip_rend_style_re with (flip2_re "style" "rend").
  change flip_xmlns_re with (flip2_re "xmlns:math" "xmlns").
  change flip_moo_re with (flip2_re "moo" "MOO").
  destruct (ie u); [|destruct (edge u); [|done]].
  - by rewrite sub_div_Permutation, !sub_flip2_Permutation.
  - by rewrite sub_flip2_Permutation, sub_div_Permutation,
               sub_flip2_Permutation.
Qed.

(** ** The namespace declarations *)

(** [lit a] does not end with [lit a'], for names that are given. *)
Ltac not_an_end :=
  let pre := fresh "pre" in
  let E := fresh "E" in
  intros pre E; apply (f_equal (@rev _)) in E;
  rewrite rev_app_distr in E; by vm_compute in E.

Lemma canonical_xmlns (X Y : str) :
  quote_free X -> quote_free Y ->
  canonical (pair_text "xmlns" "xmlns:math" Y X).
Proof.
  intros HX HY. apply canonical_free.
  repeat split;
    try (by apply free_div_pair_text);
    apply free_flip2_pair_text; try done; not_an_end.
Qed.

Lemma free_xmlns_math (X Y : str) :
  quote_free X -> quote_free Y ->
  free flip_rend_style_re (pair_text "xmlns:math" "xmlns" X Y)
  /\ free flip_div_attrs_re (pair_text "xmlns:math" "xmlns" X Y)
  /\ free flip_moo_re (pair_text "xmlns:math" "xmlns" X Y).
Proof.
  intros HX HY.
  repeat split;
    try (by apply free_div_pair_text);
    apply free_flip2_pair_text; try done; not_an_end.
Qed.

(** ** Errors and verdicts of the comparison *)

Section VerifierMore.
Context {other : Type} (other_eq : other -> other -> bool).
Implicit Types (d a e : gmap str (@value other)) (u : util).

Lemma compare_no_version u e d :
  d !! k_version = None ->
  compare other_eq u e (Dict d) = Raise (KeyError k_version).
Proof. intros H. unfold compare. by rewrite H. Qed.

(** A result of the comparison carries the dicts its verdict is about. *)
Lemma compare_Ok u e l r :
  compare other_eq u e l = Ok r ->
  result r = dict_eq other_eq (fst (payload r)) (snd (payload r))
  /\ snd (payload r) = e.
Proof.
  destruct l as [d|]; [|done].
  destruct (d !! k_version) as [v|] eqn:Hv.
  - rewrite (compare_Dict _ _ _ _ _ Hv).
    destruct (data_not_str u (delete k_version d)); [done|].
    by intros [= <-].
  - by rewrite compare_no_version.
Qed.

Lemma cond_Ok json_loads (srv : server) u e m r :
  fst (cond other_eq json_loads srv u e m) = Ok r ->
  exists l, compare other_eq u e l = Ok r.
Proof.
  unfold cond, bind, get, lift.
  destruct (json_loads _) as [l|err]; [|done]. cbn. intros H.
  exists l. by destruct (compare other_eq u e l).
Qed.

Lemma normalized_expected u (doc : str) (v : @value other) :
  normalize u doc = doc ->
  normalized u (delete k_version (<[k_version := v]> (expected_of doc)))
  = expected_of doc.
Proof.
  intros Hn.
  assert (delete k_version (<[k_version := v]> (expected_of doc))
          = expected_of doc) as ->.
  { rewrite delete_insert_eq. by apply delete_id. }
  unfold normalized.
  assert (expected_of (other:=other) doc !! k_data = Some (VStr doc))
    as Hd by done.
  rewrite Hd, Hn. by apply insert_id.
Qed.
End VerifierMore.

(** ** The text that reaches the decoder *)

Lemma strip_noop (s : str) :
  (forall c t, s = c :: t -> isspace c = false) ->
  (forall t c, s = t ++ [c] -> isspace c = false) ->
  strip s = s.
Proof.
  intros Hh Ht. unfold strip, rstrip.
  assert (forall t : str,
             (forall c t', t = c :: t' -> isspace c = false) -> lstrip t = t)
    as Hl.
  { intros [|c t] H; [done|]. cbn [lstrip]. by rewrite (H c t). }
  rewrite (Hl s Hh), Hl; [apply rev_involutive|].
  intros c t' E. apply (Ht (rev t') c).
  apply (f_equal (@rev _)) in E. rewrite rev_involutive in E.
  by rewrite E.
Qed.

Lemma leftmost_cuts_lines (segs : list str) (tail : str) :
  Forall (fun seg => nl ∉ seg) segs ->
  ~ occurs marker tail ->
  leftmost_cuts marker segs tail.
Proof.
  intros Hsegs Htail. induction Hsegs as [|seg segs Hseg _ IH];
    cbn [leftmost_cuts]; [done|].
  split; [|done]. intros pre' post' E.
  destruct (decide (length seg <= length pre')) as [|Hlt]; [done|].
  exfalso. apply Hseg.
  apply (f_equal (fun s => s !! length pre')) in E. cbn beta in E.
  rewrite lookup_app_l in E by lia.
  rewrite lookup_app_r, Nat.sub_diag in E by lia.
  apply list_elem_of_lookup. exists (length pre'). by rewrite E.
Qed.

Lemma obj_no_newline (b : str) : nl ∉ b -> nl ∉ obj b.
Proof.
  intros Hb. unfold obj. rewrite !not_elem_of_app. split; [|split; [done|]].
  - by intros [E|H]%elem_of_cons; [|apply elem_of_nil in H].
  - by intros [E|H]%elem_of_cons; [|apply elem_of_nil in H].
Qed.

Lemma concat_objs_nonempty (bodies : list str) (b : str) :
  exists P, concat (map obj (bodies ++ [b])) = P ++ lit "}"
            /\ (Forall (fun x => nl ∉ x) (bodies ++ [b]) -> nl ∉ P).
Proof.
  induction bodies as [|x bodies (P & E & HP)]; cbn [app map concat].
  - exists (lit "{" ++ b). split.
    + unfold obj. by rewrite app_nil_r, <- app_assoc.
    + intros Hb. apply Forall_cons in Hb as [Hb _].
      rewrite not_elem_of_app. split; [|done].
      by intros [?|H]%elem_of_cons; [|apply elem_of_nil in H].
  - exists (obj x ++ P). split.
    + by rewrite E, app_assoc.
    + intros Hx. apply Forall_cons in Hx as [Hx Hr].
      rewrite not_elem_of_app. split; [by apply obj_no_newline|auto].
Qed.

(** * Further properties, stated *)

(** X1.  Whatever the text, the repair leaves no [}{] in it, so that a
    second repair changes nothing. *)
Theorem repair_no_boundary_left (s : str) :
  ~ occurs (lit "}{") (repair s) /\ repair (repair s) = repair s.
Proof.
  split; [apply repair_free|].
  apply sub_free, free_last_obj_re, repair_free.
Qed.

(** X2.  The repair returns a text as it is exactly when the text holds no
    [}{]: a single object goes through untouched, unless a [}{] stands
    inside it. *)
Theorem repair_unchanged_iff (s : str) :
  repair s = s <-> ~ occurs (lit "}{") s.
Proof.
  split.
  - intros E. rewrite <- E. apply repair_free.
  - intros H. by apply sub_free, free_last_obj_re.
Qed.

(** X3.  The repair works line by line: the repair of a first line and the
    rest of a text is the repair of the line, the newline, and the repair of
    the rest. *)
Theorem repair_linewise (a b : str) :
  nl ∉ a -> repair (a ++ nl :: b) = repair a ++ nl :: repair b.
Proof. apply repair_line. Qed.

(** X3 at a text of two lines. *)
Lemma repair_linewise_witness :
  repair (lit "{'a':1}{'b':2}" ++ nl :: lit "{'c':3}{'d':4}")
  = repair (lit "{'a':1}{'b':2}") ++ nl :: repair (lit "{'c':3}{'d':4}").
Proof.
  apply (repair_linewise (lit "{'a':1}{'b':2}") (lit "{'c':3}{'d':4}")).
  apply count_0. reflexivity.
Defined.

(** X4.  For every browser identity the Normalizer only moves text: its
    result is a rearrangement of the data, of the same length. *)
Theorem normalize_only_moves (u : util) (data : str) :
  normalize u data ≡ₚ data /\ length (normalize u data) = length data.
Proof.
  split; [apply normalize_Permutation|].
  apply Permutation_length, normalize_Permutation.
Qed.

(** X5.  For an identity [u] with the IE flag, the second step of the
    Normalizer swaps every pair [xmlns:math='X' xmlns='Y'] that a scan from
    left to right meets in the text the first step produced, to
    [xmlns='Y' xmlns:math='X'], and the last step runs on that; the
    canonical pair is left as it is.  An identity [u'] without the IE flag
    (legacy Edge, default) leaves [xmlns:math='X' xmlns='Y'] as it is. *)
Theorem xmlns_pairs_swapped (u u' : util) (data X Y : str) :
  ie u = true -> ie u' = false ->
  quote_free X -> quote_free Y ->
  (exists l tail,
      sub flip_rend_style_re swap_t data
      = with_pairs "xmlns:math" "xmlns" l tail
      /\ leftmost_pairs "xmlns:math" "xmlns" l tail)
  /\ (forall l tail,
         sub flip_rend_style_re swap_t data
         = with_pairs "xmlns:math" "xmlns" l tail ->
         leftmost_pairs "xmlns:math" "xmlns" l tail ->
         normalize u data
         = sub flip_div_attrs_re div_t
             (with_pairs "xmlns" "xmlns:math" (swapped l) tail))
  /\ normalize u (pair_text "xmlns" "xmlns:math" Y X)
     = pair_text "xmlns" "xmlns:math" Y X
  /\ normalize u' (pair_text "xmlns:math" "xmlns" X Y)
     = pair_text "xmlns:math" "xmlns" X Y.
Proof.
  intros Hie Hie' HX HY.
  split; [apply pairs_cut_exists|]. split; [|split].
  - intros l tail Hdata Hl. unfold normalize. rewrite Hie, Hdata.
    by rewrite (sub_flip2_pairs "xmlns:math" "xmlns").
  - pose proof (canonical_xmlns X Y HX HY) as Hc.
    apply canonical_free in Hc as (? & ? & ? & ?). by apply normalize_free.
  - destruct (free_xmlns_math X Y HX HY) as (H1 & H2 & H3).
    unfold normalize. rewrite Hie'. destruct (edge u'); [|done].
    by rewrite (sub_free flip_rend_style_re), (sub_free flip_div_attrs_re),
               (sub_free flip_moo_re).
Qed.

(** X5 at the opening tag of the second document of the table, as the
    legacy IE identity serialises it. *)
Lemma xmlns_pairs_swapped_witness :
  normalize legacy_ie (lit "<TEI xmlns:math='m' xmlns='t'>")
  = lit "<TEI xmlns='t' xmlns:math='m'>"
  /\ normalize legacy_ie (lit "xmlns='t' xmlns:math='m'")
     = lit "xmlns='t' xmlns:math='m'"
  /\ normalize legacy_edge (lit "xmlns:math='m' xmlns='t'")
     = lit "xmlns:math='m' xmlns='t'".
Proof.
  destruct (xmlns_pairs_swapped legacy_ie legacy_edge
              (lit "<TEI xmlns:math='m' xmlns='t'>") (lit "m") (lit "t")
              eq_refl eq_refl)
    as (_ & Hswap & Hrest).
  - apply quotes_free. reflexivity.
  - apply quotes_free. reflexivity.
  - split; [|exact Hrest].
    apply (Hswap [(lit "<TEI ", lit "m", lit "t")] (lit ">")).
    + by vm_compute.
    + apply check_pairs_sound. by vm_compute.
Defined.

(** X6.  For the legacy IE and the legacy Edge identity, the rule for the
    four attributes puts every group
    [type='A' rend='B' rendition='C' subtype='D'] that a scan from left to
    right meets, in the text the earlier steps produced, into the order
    [type='A' subtype='D' rend='B' rendition='C']; every such text has such
    a cut, and what remains of the Normalizer runs on the result. *)
Theorem div_attrs_reordered (u : util) (data : str) :
  ie u = true \/ edge u = true ->
  (exists l tail,
      before_div u data = with_divs div_text l tail /\ leftmost_divs l tail)
  /\ (forall l tail,
         before_div u data = with_divs div_text l tail ->
         leftmost_divs l tail ->
         normalize u data = after_div u (with_divs div_canon l tail)).
Proof.
  intros Hu. split; [apply divs_cut_exists|].
  intros l tail Hdata Hl. unfold normalize, after_div.
  unfold before_div in Hdata.
  destruct (ie u).
  - by rewrite Hdata, sub_div_groups.
  - destruct Hu as [Ht|He]; [done|]. by rewrite He, Hdata, sub_div_groups.
Qed.

(** X6 at the [div] of the first document of the table, as the legacy
    browsers serialise it. *)
Lemma div_attrs_reordered_witness :
  normalize legacy_edge
    (lit "<div type='a' rend='foo' rendition='bar' subtype='b'/>")
  = lit "<div type='a' subtype='b' rend='foo' rendition='bar'/>".
Proof.
  refine (proj2
            (div_attrs_reordered legacy_edge
               (lit "<div type='a' rend='foo' rendition='bar' subtype='b'/>")
               (or_intror eq_refl))
            [(lit "<div ", lit "a", lit "foo", lit "bar", lit "b")]
            (lit "/>") _ _).
  - by vm_compute.
  - apply check_divs_sound. by vm_compute.
Defined.

(** X9.  When every save wrote its object on one line and the marker after
    it, the text handed to the decoder is exactly the object of the last
    save, provided no [}{] stands inside that object. *)
Theorem last_save_decoded (bodies : list str) (last : str) :
  Forall (fun b => nl ∉ b) bodies ->
  nl ∉ last ->
  ~ occurs (lit "}{") (obj last) ->
  repair (preprocess (joined marker (map obj (bodies ++ [last])) []))
  = obj last.
Proof.
  intros Hb Hl Hfree.
  assert (Forall (fun x => nl ∉ x) (bodies ++ [last])) as Hall.
  { apply Forall_app. split; [done|]. by constructor. }
  destruct (concat_objs_nonempty bodies last) as (P & EP & HP).
  assert (preprocess (joined marker (map obj (bodies ++ [last])) [])
          = concat (map obj (bodies ++ [last]))) as ->.
  { unfold preprocess. rewrite replace_joined, joined_nil, app_nil_r.
    - apply strip_noop.
      + intros c t E. destruct bodies; cbn in E; by injection E as <- _.
      + intros t c E. rewrite EP in E.
        apply app_inj_tail in E as [_ <-]. done.
    - done.
    - apply leftmost_cuts_lines.
      + apply Forall_fmap. eapply Forall_impl; [exact Hall|].
        intros x Hx. by apply obj_no_newline.
      + intros (pre & post & E). symmetry in E.
        apply app_eq_nil in E as [_ E]. done. }
  destruct bodies as [|b' bodies' _] using rev_ind.
  - cbn [app map concat]. rewrite app_nil_r.
    by apply sub_free, free_last_obj_re.
  - destruct (concat_objs_nonempty bodies' b') as (Q & EQ & HQ).
    rewrite map_app, concat_app, EQ. cbn [map concat]. rewrite app_nil_r.
    unfold obj. rewrite <- !app_assoc.
    change (lit "}" ++ lit "{" ++ last ++ lit "}")
      with (lit "}{" ++ last ++ lit "}").
    apply (repair_last_object Q (last ++ lit "}")).
    + by apply HQ.
    + intros (pre & post & E). apply Hfree.
      exists (lit "{" ++ pre), post. unfold obj. by rewrite E, <- app_assoc.
Qed.

(** X9 at three saves. *)
Lemma last_save_decoded_witness :
  repair (preprocess
            (lit "{'version':'1'}" ++ marker ++ lit "{'version':'2'}"
             ++ marker ++ lit "{'version':'3'}" ++ marker))
  = lit "{'version':'3'}".
Proof.
  apply (last_save_decoded [lit "'version':'1'"; lit "'version':'2'"]
           (lit "'version':'3'")).
  - repeat constructor; apply count_0; reflexivity.
  - apply count_0. reflexivity.
  - intros Ho. apply contains_occurs in Ho. by vm_compute in Ho.
Defined.

Section VerifierExtras.
Context {other : Type} (other_eq : other -> other -> bool).
Implicit Types (d a e : gmap str (@value other)) (u : util).
Implicit Types (json_loads : str -> @outcome other (@loaded other)).

(** X7.  The comparison raises [TypeError] exactly when the decoded value is
    not a dict, or has a [version] and a [data] that is not a string under
    the legacy IE or Edge identity; it raises the key error for [version]
    exactly when the dict has no [version]; it raises nothing else, and in
    particular never a key error for [data]. *)
Theorem compare_raises u e (l : @loaded other) (err : @exn other) :
  (compare other_eq u e l = Raise err <->
   (err = TypeError
    /\ (l = NotDict
        \/ exists d v, l = Dict d /\ d !! k_version = Some v
                       /\ data_not_str u (delete k_version d) = true))
   \/ (err = KeyError k_version
       /\ exists d, l = Dict d /\ d !! k_version = None))
  /\ compare other_eq u e l <> Raise (KeyError k_data).
Proof.
  assert (forall err : @exn other,
   compare other_eq u e l = Raise err <->
   (err = TypeError
    /\ (l = NotDict
        \/ exists d v, l = Dict d /\ d !! k_version = Some v
                       /\ data_not_str u (delete k_version d) = true))
   \/ (err = KeyError k_version
       /\ exists d, l = Dict d /\ d !! k_version = None)) as Hiff.
  { clear err. intros err. destruct l as [d|].
    - destruct (d !! k_version) as [v|] eqn:Hv.
      + rewrite (compare_Dict _ _ _ _ _ Hv).
        destruct (data_not_str u (delete k_version d)) eqn:Hn.
        * split.
          -- intros [= <-]. left. split; [done|]. right. by exists d, v.
          -- intros [[-> _]|[_ (d' & [= <-] & Hd')]]; [done|congruence].
        * split; [done|].
          intros [[_ [?|(d' & v' & [= <-] & _ & Hd')]]
                 |[_ (d' & [= <-] & Hd')]]; congruence.
      + rewrite compare_no_version by done. split.
        * intros [= <-]. right. split; [done|]. by exists d.
        * intros [[_ [?|(d' & v' & [= <-] & Hd' & _)]]|[-> _]];
            [done|congruence|done].
    - cbn [compare]. split.
      + intros [= <-]. left. split; [done|]. by left.
      + intros [[-> _]|[_ (d' & ? & _)]]; done. }
  split; [done|]. intros H. apply Hiff in H as [[? _]|[H _]]; [done|].
  injection H as H. by vm_compute in H.
Qed.

(** X8.  For a scenario of the table, the step ends as the polling ends,
    given that a result the polling returns is one the condition produced:
    it passes when that result counts as true, raises the assertion error
    when it does not, and passes on an exception of the polling. *)
Theorem step_verdict json_loads
    (wait : @M other (@Result other) -> @M other (@Result other))
    (srv : server) u (scenario_name data : str) (n : nat) :
  _SCENARIO_TO_EXPECTED_DATA !! scenario_name = Some data ->
  (forall r n',
      wait (cond other_eq json_loads srv u (expected_of data)) n = (Ok r, n') ->
      exists m,
        fst (cond other_eq json_loads srv u (expected_of data) m) = Ok r) ->
  step_impl other_eq json_loads wait srv u scenario_name n
  = match wait (cond other_eq json_loads srv u (expected_of data)) n with
    | (Ok r, n') => (if result r then Ok tt else Raise AssertionError, n')
    | (Raise err, n') => (Raise err, n')
    end.
Proof.
  intros Hname Hwait. unfold step_impl. rewrite Hname. unfold bind.
  destruct (wait _ n) as [[r|err] n'] eqn:Ew; [|done].
  destruct (result r) eqn:Hr; [done|]. cbn [negb].
  destruct (Hwait r n' eq_refl) as [m Hm].
  apply cond_Ok in Hm as [l Hl].
  apply compare_Ok in Hl as [Hres _].
  unfold assert_equal. by rewrite <- Hres, Hr.
Qed.

(** X10.  Each document of the table verifies under every browser identity:
    a payload with the command [save], any [version], and the expected
    document of a scenario as its [data] makes the condition of that
    scenario succeed, whatever the two flags are. *)
Theorem table_documents_verify u (scenario_name doc : str)
    (v : @value other) :
  _SCENARIO_TO_EXPECTED_DATA !! scenario_name = Some doc ->
  succeeds (compare other_eq u (expected_of doc)
              (Dict (<[k_version := v]> (expected_of doc)))) = true.
Proof.
  intros Hname.
  assert (canonical doc) as Hc.
  { unfold _SCENARIO_TO_EXPECTED_DATA in Hname.
    destruct (decide (scenario_name = lit "serializes namespaces properly"))
      as [->|Hn1].
    - rewrite lookup_insert_eq in Hname. injection Hname as <-.
      apply expected_canonical.
    - rewrite lookup_insert_ne in Hname by done.
      destruct (decide (scenario_name
                        = lit "serializes multiple top namespaces properly"))
        as [->|Hn2].
      + rewrite lookup_insert_eq in Hname. injection Hname as <-.
        apply expected_canonical.
      + by rewrite lookup_insert_ne, lookup_empty in Hname. }
  apply canonical_free in Hc as (H1 & H2 & H3 & H4).
  pose proof (normalize_free u doc H1 H2 H3 H4) as Hn.
  rewrite (compare_Dict _ _ _ _ v) by apply lookup_insert_eq.
  pose proof (normalized_expected u doc v Hn) as Hnorm.
  assert (data_not_str u (delete k_version (<[k_version := v]> (expected_of doc)))
          = false) as ->.
  { unfold data_not_str. rewrite delete_insert_eq, delete_id by done. done. }
  cbn [succeeds result]. rewrite Hnorm. by apply dict_eq_expected.
Qed.
End VerifierExtras.

(** X8 at the first scenario of the table, with a polling that evaluates the
    condition once, on a server that saved nothing a decoder accepts. *)
Lemma step_verdict_witness :
  step_impl demo_eq (fun _ => Ok (Dict (demo_payload (lit "1") (lit "X"))))
    (fun c => c) (fun _ => []) default_browser
    (lit "serializes namespaces properly") 0
  = (Raise AssertionError, 1).
Proof.
  rewrite (step_verdict demo_eq
             (fun _ => Ok (Dict (demo_payload (lit "1") (lit "X"))))
             (fun c => c) (fun _ => []) default_browser
             (lit "serializes namespaces properly") expected_namespaces 0).
  - by vm_compute.
  - reflexivity.
  - intros r n' H. exists 0. by rewrite H.
Defined.

(** X10 at the second scenario of the table, for the legacy IE identity. *)
Lemma table_documents_verify_witness :
  succeeds (compare demo_eq legacy_ie (expected_of expected_top_namespaces)
              (Dict (demo_payload (lit "7") expected_top_namespaces)))
  = true.
Proof.
  apply (table_documents_verify demo_eq legacy_ie
           (lit "serializes multiple top namespaces properly")
           expected_top_namespaces (VStr (lit "7"))).
  reflexivity.
Defined.
